(** * A self-draining buffer that relays work items to a remote API

    Shallow embedding of [main.go]: the [Buffer] dispatcher ([Add],
    [sendData]) as an interleaving transition system over program points,
    and the sink adapter ([sendToAPI]) as a function of the answers given by
    the Go runtime and the network.  [getFacts] is called nowhere and is
    left out. *)

From Stdlib Require Import ZArith Ascii String.
From stdpp Require Import base tactics option list sorting gmap strings pretty.

Local Open Scope Z_scope.
Set Warnings "-register-all".

(** ** Go values used by the program *)

(** A Go [error] value, kept as its message. *)
Definition error := string.

(** [map[string]string]: the work item handed to [Add]. *)
Abbreviation WorkItem := (gmap string string).

(** [url.Values], i.e. [map[string][]string]. *)
Abbreviation Values := (gmap string (list string)).

(** A decoded [interface{}] field of the response. *)
Inductive JsonValue :=
  | JNull
  | JBool (b : bool)
  | JNumber (literal : string)
  | JString (s : string)
  | JArray (elems : list JsonValue)
  | JObject (fields : list (string * JsonValue)).

Record Messages := {
  Error : JsonValue;
  Warning : JsonValue;
  Info : list string
}.

Record Data := { IndicatorToMoFactID : Z }.

Record APIResponse := {
  Messages_ : Messages;
  Data_ : Data;
  Status_ : string
}.

(** [http.Request], as far as [sendToAPI] fills it in. *)
Record Request := {
  Method : string;
  URL : string;
  Header : gmap string string;
  ReqBody : string
}.

(** [http.Response]: [Body] is what [ioutil.ReadAll(resp.Body)] returns. *)
Record Response := {
  StatusCode : Z;
  Status : string;
  Body : error + string
}.

Definition StatusOK : Z := 200.

(** Everything [sendToAPI] calls that lives outside the repository: the
    iteration order the runtime picks for a [range] over a map, the
    standard library and the server behind the network. *)
Record World := {
  range_item : WorkItem → list (string * string);
  range_keys : Values → list string;
  QueryEscape : string → string;
  url_Parse : string → option error;
  client_Do : Request → error + Response;
  json_Unmarshal : string → error + APIResponse
}.

(** A [range] visits every entry of the map once, in an order of its own. *)
Record range_ok (w : World) : Prop := {
  range_item_perm : ∀ m, range_item w m ≡ₚ map_to_list m;
  range_keys_perm : ∀ v, range_keys w v ≡ₚ (map_to_list v).*1
}.

(** ** [url.Values] *)

(** [formData.Set(key, value)] replaces whatever was stored under [key]. *)
Definition Values_Set (v : Values) (key value : string) : Values :=
  <[key := [value]]> v.

(** One [key=value] pair written by [Encode] into its builder, preceded by
    ['&'] when the builder is not empty. *)
Definition write_pair (w : World) (keyEscaped : string) (buf v : string) : string :=
  let buf := if decide (String.length buf = 0%nat) then buf else buf +:+ "&" in
  buf +:+ keyEscaped +:+ "=" +:+ QueryEscape w v.

(** [Values.Encode]: the keys are collected by a [range], sorted (byte by
    byte, which is the order [String.le]), and every value of every key is
    written in turn. *)
Definition Values_Encode (w : World) (v : Values) : string :=
  if decide (size v = 0%nat) then "" else
  let keys := merge_sort String.le (range_keys w v) in
  foldl (λ buf k,
           let vs := default [] (v !! k) in
           let keyEscaped := QueryEscape w k in
           foldl (write_pair w keyEscaped) buf vs)
        "" keys.

(** ** [sendToAPI] *)

(** The line printed by [sendToAPI] on the path it leaves by. *)
Inductive Report :=
  | ErrCreatingRequest (err : error)
  | ErrSendingRequest (err : error)
  | ErrReadingBody (err : error)
  | ErrUnmarshal (err : error)
  | ErrResponse (status : string)
  | Sent (body : string).

Definition failed (r : Report) : bool :=
  match r with Sent _ => false | _ => true end.

(** Lines 98-101: the form is filled from the item, entry by entry. *)
Definition formData (w : World) (data : WorkItem) : Values :=
  foldl (λ fd kv, Values_Set fd kv.1 kv.2) ∅ (range_item w data).

(** The body given to [http.NewRequest] on line 103. *)
Definition requestBody (w : World) (data : WorkItem) : string :=
  Values_Encode w (formData w data).

(** [http.NewRequest]: fails when the URL does not parse (the method
    ["POST"] is always valid), otherwise a request with an empty header. *)
Definition http_NewRequest (w : World) (method url body : string) : error + Request :=
  match url_Parse w url with
  | Some err => inl err
  | None => inr {| Method := method; URL := url; Header := ∅; ReqBody := body |}
  end.

Definition Header_Set (req : Request) (k v : string) : Request :=
  {| Method := Method req; URL := URL req;
     Header := <[k := v]> (Header req); ReqBody := ReqBody req |}.

Definition sendToAPI (w : World) (url token : string) (data : WorkItem) : Report :=
  match http_NewRequest w "POST" url (requestBody w data) with
  | inl err => ErrCreatingRequest err
  | inr req =>
    let req := Header_Set req "Content-Type" "application/x-www-form-urlencoded" in
    let req := Header_Set req "Authorization" ("Bearer " +:+ token) in
    match client_Do w req with
    | inl err => ErrSendingRequest err
    | inr resp =>
      match Body resp with
      | inl err => ErrReadingBody err
      | inr body =>
        match json_Unmarshal w body with
        | inl err => ErrUnmarshal err
        | inr response =>
          if decide (StatusCode resp ≠ StatusOK) then ErrResponse (Status resp)
          else Sent body
        end
      end
    end
  end.

(** ** The dispatcher *)

(** The [Buffer] struct.  [mu] tells whether the mutex is locked and [wg]
    is the counter of the wait group.  The [cond] field is created by
    [NewBuffer] and never used afterwards, so it carries no state here. *)
Record Buffer := {
  data : list WorkItem;
  mu : bool;
  url : string;
  token : string;
  isSending : bool;
  wg : Z
}.

Definition NewBuffer (apiURL tok : string) : Buffer :=
  {| data := []; mu := false; url := apiURL; token := tok;
     isSending := false; wg := 0 |}.

Definition set_data (d : list WorkItem) (b : Buffer) : Buffer :=
  {| data := d; mu := mu b; url := url b; token := token b;
     isSending := isSending b; wg := wg b |}.
Definition set_mu (m : bool) (b : Buffer) : Buffer :=
  {| data := data b; mu := m; url := url b; token := token b;
     isSending := isSending b; wg := wg b |}.
Definition set_isSending (f : bool) (b : Buffer) : Buffer :=
  {| data := data b; mu := mu b; url := url b; token := token b;
     isSending := f; wg := wg b |}.
Definition set_wg (n : Z) (b : Buffer) : Buffer :=
  {| data := data b; mu := mu b; url := url b; token := token b;
     isSending := isSending b; wg := n |}.

(** Where a goroutine stands: the constructor names the source line of the
    statement it executes next.  A producer is a goroutine that calls the
    buffer from outside ([main] is one); the others run [sendData]. *)
Inductive pc :=
  | Idle                        (* producer, outside the buffer's methods *)
  | Add60 (item : WorkItem)     (* b.mu.Lock() *)
  | Add62 (item : WorkItem)     (* b.data = append(b.data, item) *)
  | Add63                       (* if !b.isSending *)
  | Add64                       (* b.isSending = true *)
  | Add65                       (* b.wg.Add(1) *)
  | Add66                       (* go b.sendData() *)
  | Add61d                      (* deferred b.mu.Unlock(), then return *)
  | Wait209                     (* buffer.wg.Wait() *)
  | Send73                      (* b.mu.Lock() *)
  | Send74                      (* if len(b.data) == 0 *)
  | Send75                      (* b.isSending = false *)
  | Send76                      (* b.mu.Unlock(); return *)
  | Send79                      (* item := b.data[0] *)
  | Send80 (item : WorkItem)    (* b.data = b.data[1:] *)
  | Send81 (item : WorkItem)    (* b.mu.Unlock() *)
  | Send83 (item : WorkItem)    (* b.sendToAPI(item): the call is made *)
  | InAPI (item : WorkItem)     (* inside sendToAPI, until it returns *)
  | Send85                      (* b.mu.Lock() *)
  | Send87                      (* if len(b.data) == 0 *)
  | Send88                      (* b.isSending = false *)
  | Send90                      (* b.wg.Add(1) *)
  | Send91                      (* go b.sendData() *)
  | Send86d                     (* deferred b.mu.Unlock() *)
  | Send72d                     (* deferred b.wg.Done() *)
  | Exited.                     (* the sendData goroutine has ended *)

Global Instance pc_eq_dec : EqDecision pc.
Proof. solve_decision. Defined.

(** The buffer, its goroutines (a goroutine is named by its position), and
    a record of what has happened so far: the items in the order [Add] was
    called, in the order line 62 appended them, in the order [sendToAPI]
    was called on them, and the lines printed. *)
Record System := {
  buf : Buffer;
  threads : list pc;
  called : list WorkItem;
  enqueued : list WorkItem;
  delivered : list WorkItem;
  stdout : list Report
}.

Definition upd_buf (f : Buffer → Buffer) (s : System) : System :=
  {| buf := f (buf s); threads := threads s; called := called s;
     enqueued := enqueued s; delivered := delivered s; stdout := stdout s |}.
Definition jump (t : nat) (p : pc) (s : System) : System :=
  {| buf := buf s; threads := <[t := p]> (threads s); called := called s;
     enqueued := enqueued s; delivered := delivered s; stdout := stdout s |}.
Definition spawn (p : pc) (s : System) : System :=
  {| buf := buf s; threads := threads s ++ [p]; called := called s;
     enqueued := enqueued s; delivered := delivered s; stdout := stdout s |}.
Definition note_called (item : WorkItem) (s : System) : System :=
  {| buf := buf s; threads := threads s; called := called s ++ [item];
     enqueued := enqueued s; delivered := delivered s; stdout := stdout s |}.
Definition note_enqueued (item : WorkItem) (s : System) : System :=
  {| buf := buf s; threads := threads s; called := called s;
     enqueued := enqueued s ++ [item]; delivered := delivered s;
     stdout := stdout s |}.
Definition note_delivered (item : WorkItem) (s : System) : System :=
  {| buf := buf s; threads := threads s; called := called s;
     enqueued := enqueued s; delivered := delivered s ++ [item];
     stdout := stdout s |}.
Definition print (r : Report) (s : System) : System :=
  {| buf := buf s; threads := threads s; called := called s;
     enqueued := enqueued s; delivered := delivered s;
     stdout := stdout s ++ [r] |}.

(** What makes a goroutine move: it runs its next statement, or (a producer
    outside the buffer) calls [Add] or [wg.Wait], or (inside [sendToAPI])
    the call runs to its end against some world. *)
Inductive Input :=
  | Run
  | CallAdd (item : WorkItem)
  | CallWait
  | Return (w : World).

(** The result of asking goroutine [t] to move: the next state; [Blocked]
    when it waits for the mutex or the wait group; [Panic] where the Go
    runtime would abort (unlock of an unlocked mutex, negative wait-group
    counter, index out of range); [Refused] when the request makes no sense
    (no such goroutine, or an input its program point does not take). *)
Inductive Outcome :=
  | Next (s : System)
  | Blocked
  | Panic
  | Refused.

Definition Lock (t : nat) (p : pc) (s : System) : Outcome :=
  if mu (buf s) then Blocked else Next (jump t p (upd_buf (set_mu true) s)).

Definition Unlock (t : nat) (p : pc) (s : System) : Outcome :=
  if mu (buf s) then Next (jump t p (upd_buf (set_mu false) s)) else Panic.

(** [wg.Add(delta)], and [wg.Done()] for [delta = -1]: the counter of the
    wait group changes by [delta], and the runtime aborts when that makes
    it negative.  Of [sync.WaitGroup] this keeps the counter only.  The
    runtime also counts the goroutines parked in [Wait] and aborts when it
    sees the counter raised from zero before a parked goroutine has left
    [Wait] ("WaitGroup misuse: Add called concurrently with Wait",
    "WaitGroup is reused before previous Wait has returned"); that check
    is not taken here.  It can fire only when some goroutine executes line
    65 while another one is inside [wg.Wait()], see [wg_rule] below. *)
Definition wg_Add (delta : Z) (t : nat) (p : pc) (s : System) : Outcome :=
  let n := wg (buf s) + delta in
  if decide (n < 0) then Panic else Next (jump t p (upd_buf (set_wg n) s)).

(** One move of goroutine [t].  A goroutine at line 209 is inside
    [wg.Wait()]: its move is the return of the call, taken when the
    counter is found at zero; until then the answer is [Blocked], and no
    record is kept of whether the goroutine has parked already. *)
Definition step (t : nat) (i : Input) (s : System) : Outcome :=
  match threads s !! t with
  | None => Refused
  | Some p =>
    match p, i with
    | Idle, CallAdd item => Next (jump t (Add60 item) (note_called item s))
    | Idle, CallWait => Next (jump t Wait209 s)
    | Wait209, Run =>
        if decide (wg (buf s) = 0) then Next (jump t Idle s) else Blocked
    (* Add *)
    | Add60 item, Run => Lock t (Add62 item) s
    | Add62 item, Run =>
        Next (jump t Add63
                (note_enqueued item (upd_buf (set_data (data (buf s) ++ [item])) s)))
    | Add63, Run =>
        Next (jump t (if isSending (buf s) then Add61d else Add64) s)
    | Add64, Run => Next (jump t Add65 (upd_buf (set_isSending true) s))
    | Add65, Run => wg_Add 1 t Add66 s
    | Add66, Run => Next (jump t Add61d (spawn Send73 s))
    | Add61d, Run => Unlock t Idle s
    (* sendData *)
    | Send73, Run => Lock t Send74 s
    | Send74, Run =>
        Next (jump t (if decide (length (data (buf s)) = 0%nat) then Send75 else Send79) s)
    | Send75, Run => Next (jump t Send76 (upd_buf (set_isSending false) s))
    | Send76, Run => Unlock t Send72d s
    | Send79, Run =>
        match data (buf s) with
        | [] => Panic
        | item :: _ => Next (jump t (Send80 item) s)
        end
    | Send80 item, Run =>
        match data (buf s) with
        | [] => Panic
        | _ :: rest => Next (jump t (Send81 item) (upd_buf (set_data rest) s))
        end
    | Send81 item, Run => Unlock t (Send83 item) s
    | Send83 item, Run => Next (jump t (InAPI item) (note_delivered item s))
    | InAPI item, Return w =>
        Next (jump t Send85
                (print (sendToAPI w (url (buf s)) (token (buf s)) item) s))
    | Send85, Run => Lock t Send87 s
    | Send87, Run =>
        Next (jump t (if decide (length (data (buf s)) = 0%nat) then Send88 else Send90) s)
    | Send88, Run => Next (jump t Send86d (upd_buf (set_isSending false) s))
    | Send90, Run => wg_Add 1 t Send91 s
    | Send91, Run => Next (jump t Send86d (spawn Send73 s))
    | Send86d, Run => Unlock t Send72d s
    | Send72d, Run => wg_Add (-1) t Exited s
    | _, _ => Refused
    end
  end.

(** A system of [n] producers around a fresh buffer. *)
Definition init (apiURL tok : string) (n : nat) : System :=
  {| buf := NewBuffer apiURL tok; threads := replicate n Idle;
     called := []; enqueued := []; delivered := []; stdout := [] |}.

(** Running a schedule: a list of goroutines to move, with their inputs.
    The run is refused as a whole when one of its moves is not taken. *)
Fixpoint run (sched : list (nat * Input)) (s : System) : option System :=
  match sched with
  | [] => Some s
  | (t, i) :: sched =>
      match step t i s with
      | Next s' => run sched s'
      | _ => None
      end
  end.

Inductive reachable (n : nat) : System → Prop :=
  | reachable_init apiURL tok : reachable n (init apiURL tok n)
  | reachable_step s t i s' :
      reachable n s → step t i s = Next s' → reachable n s'.

(** The rule of use of [sync.WaitGroup]: a call of [Add] that raises the
    counter from zero does not run while a goroutine is inside [Wait].
    The buffer keeps it when a single producer uses it, as [main] does (the
    producer is inside [Add] or inside [wg.Wait()], not both), and, with
    more producers, as long as none of them is inside [wg.Wait()].  Where
    the rule is kept the runtime's check of it cannot fire, and the
    counter is all there is to the wait group. *)
Definition wg_rule (n : nat) (s : System) : Prop :=
  (n ≤ 1)%nat ∨ ∀ t, threads s !! t ≠ Some Wait209.

(** ** Counting goroutines by program point *)

(** The sum of a weight over all goroutines. *)
Definition tally (f : pc → nat) (l : list pc) : nat := sum_list_with f l.

(** Points between a [Lock] and the matching [Unlock]. *)
Definition holds_lock (p : pc) : nat :=
  match p with
  | Add62 _ | Add63 | Add64 | Add65 | Add66 | Add61d
  | Send74 | Send75 | Send76 | Send79 | Send80 _ | Send81 _
  | Send87 | Send88 | Send90 | Send91 | Send86d => 1
  | _ => 0
  end.

(** Points that carry the duty to drain: an [Add] that has raised
    [isSending] and not yet started its goroutine, and a [sendData] that
    has neither cleared the flag nor started its successor. *)
Definition draining (p : pc) : nat :=
  match p with
  | Add65 | Add66
  | Send73 | Send74 | Send75 | Send79 | Send80 _ | Send81 _ | Send83 _
  | InAPI _ | Send85 | Send87 | Send88 | Send90 | Send91 => 1
  | _ => 0
  end.

(** A [sendData] goroutine that has been started and has not ended. *)
Definition live (p : pc) : nat :=
  match p with
  | Send73 | Send74 | Send75 | Send76 | Send79 | Send80 _ | Send81 _
  | Send83 _ | InAPI _ | Send85 | Send87 | Send88 | Send90 | Send91
  | Send86d | Send72d => 1
  | _ => 0
  end.

(** A [wg.Add(1)] already made for a goroutine that [go] has not started. *)
Definition announced (p : pc) : nat :=
  match p with Add66 | Send91 => 1 | _ => 0 end.

(** What a goroutine contributes to the wait-group counter. *)
Definition tracked (p : pc) : nat := live p + announced p.

(** A [sendToAPI] call in progress. *)
Definition in_api (p : pc) : nat :=
  match p with InAPI _ => 1 | _ => 0 end.

(** An [Add] that has appended its item and not yet looked at, or raised,
    [isSending]. *)
Definition unflagged (p : pc) : nat :=
  match p with Add63 | Add64 => 1 | _ => 0 end.

Definition producer (p : pc) : nat :=
  match p with
  | Idle | Add60 _ | Add62 _ | Add63 | Add64 | Add65 | Add66 | Add61d
  | Wait209 => 1
  | _ => 0
  end.

(** The item a [sendData] has taken off the queue and not yet passed to
    [sendToAPI]. *)
Definition in_hand (p : pc) : list WorkItem :=
  match p with Send81 item | Send83 item => [item] | _ => [] end.

(** The item of an [Add] that has been called and has not yet appended. *)
Definition to_append (p : pc) : list WorkItem :=
  match p with Add60 item | Add62 item => [item] | _ => [] end.

(** What the goroutine at a point may rely on about the buffer: the outcome
    of the test it has just made under the lock. *)
Definition knows (p : pc) (b : Buffer) : Prop :=
  match p with
  | Add64 => isSending b = false
  | Send75 | Send88 => data b = []
  | Send79 | Send90 | Send91 => data b ≠ []
  | Send80 item => ∃ rest, data b = item :: rest
  | _ => True
  end.

Record Inv (s : System) : Prop := {
  inv_mutex : tally holds_lock (threads s) = Nat.b2n (mu (buf s));
  inv_token : tally draining (threads s) = Nat.b2n (isSending (buf s));
  inv_wg : wg (buf s) = Z.of_nat (tally tracked (threads s));
  inv_knows : ∀ t p, threads s !! t = Some p → knows p (buf s);
  inv_fifo :
    enqueued s = delivered s ++ (threads s ≫= in_hand) ++ data (buf s);
  inv_flag :
    data (buf s) ≠ [] →
    isSending (buf s) = true ∨ (0 < tally unflagged (threads s))%nat
}.


(** What holds in addition when a single producer uses the buffer: the
    items appended are the items it called [Add] with, in that order. *)
Record Inv1 (s : System) : Prop := {
  inv1_producer : tally producer (threads s) = 1%nat;
  inv1_called : called s = enqueued s ++ (threads s ≫= to_append)
}.

(** ** Running to completion *)

(** The moves that start something new: a call of [Add] or of [wg.Wait]. *)
Definition external (i : Input) : bool :=
  match i with CallAdd _ | CallWait => true | _ => false end.

(** Nothing is in progress: every producer is outside the buffer and every
    [sendData] goroutine has ended. *)
Definition settled (s : System) : Prop :=
  ∀ t p, threads s !! t = Some p → p = Idle ∨ p = Exited.

(** An upper bound on the statements a goroutine still has to execute
    itself, counting for a queued item what its delivery will cost. *)
Definition weight (p : pc) : nat :=
  match p with
  | Idle => 0 | Add60 _ => 25 | Add62 _ => 24 | Add63 => 10 | Add64 => 9
  | Add65 => 8 | Add66 => 7 | Add61d => 1 | Wait209 => 1
  | Send73 => 5 | Send74 => 4 | Send75 => 3 | Send76 => 2
  | Send79 => 3 | Send80 _ => 2 | Send81 _ => 14 | Send83 _ => 13
  | InAPI _ => 12 | Send85 => 11 | Send87 => 10 | Send88 => 3
  | Send90 => 9 | Send91 => 8 | Send86d => 2 | Send72d => 1 | Exited => 0
  end.

Definition measure (s : System) : nat :=
  (tally weight (threads s) + 13 * length (data (buf s)))%nat.

(** The input a goroutine takes where it stands, a call in progress being
    answered by the world [w]. *)
Definition input_at (w : World) (p : pc) : Input :=
  match p with InAPI _ => Return w | _ => Run end.

(** The move of the first goroutine, from [t] on, that can move. *)
Fixpoint first_move (w : World) (s : System) (t : nat) (ps : list pc)
    : option System :=
  match ps with
  | [] => None
  | p :: ps =>
      match step t (input_at w p) s with
      | Next s' => Some s'
      | _ => first_move w s (S t) ps
      end
  end.

(** Let the goroutines run, with no new call, until none can move. *)
Fixpoint drain (fuel : nat) (w : World) (s : System) : System :=
  match fuel with
  | O => s
  | S fuel =>
      match first_move w s 0 (threads s) with
      | Some s' => drain fuel w s'
      | None => s
      end
  end.

(** Position of a point in the text of [sendData]. *)
Definition rank (p : pc) : nat :=
  match p with
  | Send73 => 1 | Send74 => 2 | Send75 => 3 | Send76 => 4 | Send79 => 5
  | Send80 _ => 6 | Send81 _ => 7 | Send83 _ => 8 | InAPI _ => 9
  | Send85 => 10 | Send87 => 11 | Send88 => 12 | Send90 => 13
  | Send91 => 14 | Send86d => 15 | Send72d => 16 | Exited => 17
  | _ => 0
  end.

(** Two states that differ at most in what was printed. *)
Definition same_but_stdout (s1 s2 : System) : Prop :=
  buf s1 = buf s2 ∧ threads s1 = threads s2 ∧ called s1 = called s2 ∧
  enqueued s1 = enqueued s2 ∧ delivered s1 = delivered s2.

(** One call of [Add] by producer [t], run without interruption: the call,
    then its statements; [flag] is the value of [isSending] it will find. *)
Definition Add_moves (t : nat) (item : WorkItem) (flag : bool)
    : list (nat * Input) :=
  (t, CallAdd item) :: replicate (if flag then 4 else 7)%nat (t, Run).

(** The goroutines started by the moves of goroutine [t] in a schedule. *)
Fixpoint started_by (t : nat) (sched : list (nat * Input)) (s : System) : nat :=
  match sched with
  | [] => 0
  | (t', i) :: sched =>
      match step t' i s with
      | Next s' =>
          ((if decide (t' = t)
            then length (threads s') - length (threads s) else 0)
           + started_by t sched s')%nat
      | _ => 0%nat
      end
  end.

(** ** [main] *)

(** The record built in the loop of [main] for index [i]. *)
Definition main_item (i : nat) : WorkItem :=
  list_to_map
    [("period_start", "2024-05-01"); ("period_end", "2024-05-31");
     ("period_key", "month"); ("indicator_to_mo_id", "227373");
     ("indicator_to_mo_fact_id", "0"); ("value", pretty (i + 1)%nat);
     ("fact_time", "2024-05-31"); ("is_plan", "0"); ("auth_user_id", "40");
     ("comment", "buffer Last_name")]%string.

Definition main_items : list WorkItem := main_item <$> seq 0 10.

Definition main_url : string :=
  "https://development.kpi-drive.ru/_api/facts/save_fact".
Definition main_token : string := "48ab34464a5573519725deb5865cc74c".

(** [main] as goroutine 0 of a system of its own. *)
Definition main_init : System := init main_url main_token 1.

(** The ten calls of [Add] made by [main], each run without interruption,
    before any [sendData] goroutine has moved: only the first finds
    [isSending] false. *)
Definition main_moves : list (nat * Input) :=
  Add_moves 0 (main_item 0) false
  ++ (seq 1 9 ≫= λ i, Add_moves 0 (main_item i) true).

(** The state [main] has reached when it arrives at [wg.Wait] on line 209. *)
Definition after_main : System :=
  default main_init (run (main_moves ++ [(0%nat, CallWait)]) main_init).

(** ** Worlds to run against *)

(** The runtime and library part shared by the worlds below: maps are
    ranged over in their stored order and nothing needs escaping. *)
Definition world_with (parse : string → option error)
    (do : Request → error + Response)
    (unmarshal : string → error + APIResponse) : World :=
  {| range_item := map_to_list; range_keys := λ v, (map_to_list v).*1;
     QueryEscape := id; url_Parse := parse; client_Do := do;
     json_Unmarshal := unmarshal |}.

Definition empty_response : APIResponse :=
  {| Messages_ := {| Error := JNull; Warning := JNull; Info := [] |};
     Data_ := {| IndicatorToMoFactID := 0 |}; Status_ := "" |}.

(** A decoder that accepts bodies starting with an opening brace. *)
Definition decode_braces (body : string) : error + APIResponse :=
  match body with
  | String "{" _ => inr empty_response
  | _ => inl "invalid character"%string
  end.

(** The server answers every request with the given status and body. *)
Definition answering (code : Z) (status body : string) : World :=
  world_with (λ _, None)
    (λ _, inr {| StatusCode := code; Status := status; Body := inr body |})
    decode_braces.

(** The server cannot be reached. *)
Definition unreachable : World :=
  world_with (λ _, None) (λ _, inl "connection refused"%string) decode_braces.

(** The server answers with status 200 and the connection breaks while the
    body is read. *)
Definition broken_body : World :=
  world_with (λ _, None)
    (λ _, inr {| StatusCode := 200; Status := "200 OK";
                 Body := inl "unexpected EOF"%string |})
    decode_braces.

(** ** States used as examples *)

Definition moves (t k : nat) : list (nat * Input) := replicate k (t, Run).

(** [main] has made two calls of [Add]; the goroutine started by the first
    has taken the first item and is inside [sendToAPI]. *)
Definition in_flight : System :=
  default main_init
    (run (Add_moves 0 (main_item 0) false ++ Add_moves 0 (main_item 1) true
          ++ moves 1 6)
       main_init).

(** From there the call has returned, the queue was found non-empty and
    the successor has been started: the first [sendData] goroutine still
    has its deferred calls to make. *)
Definition handed_over : System :=
  default in_flight
    (run ((1%nat, Return unreachable) :: moves 1 4) in_flight).

(** One statement later it has released the mutex and is about to
    execute its deferred [wg.Done()]; its successor stands at the first
    line of [sendData]. *)
Definition at_Done : System :=
  default handed_over (run (moves 1 1) handed_over).

(** The points of [Add]. *)
Definition in_Add (p : pc) : bool :=
  match p with
  | Add60 _ | Add62 _ | Add63 | Add64 | Add65 | Add66 | Add61d => true
  | _ => false
  end.

(** The goroutines a call of [Add] standing at [p] has yet to start, when
    the flag it reads on line 63 is [flag]. *)
Definition owed (p : pc) (flag : bool) : nat :=
  match p with
  | Add63 => if flag then 0 else 1
  | Add64 | Add65 | Add66 => 1
  | _ => 0
  end.

(** The points of a call of [Add] from its test of [isSending] to its
    return. *)
Definition after_test (p : pc) : bool :=
  match p with
  | Add63 | Add64 | Add65 | Add66 | Add61d | Idle => true
  | _ => false
  end.

(** [main] is in its first call of [Add], about to test [isSending]. *)
Definition at_test : System :=
  default main_init
    (run ((0%nat, CallAdd (main_item 0)) :: moves 0 2) main_init).


(** ** The stages of [sendToAPI] *)

(** The request given to [client.Do] on line 111, when lines 103-109 have
    built one. *)
Definition request_made (w : World) (url token : string) (data : WorkItem)
    : option Request :=
  match http_NewRequest w "POST" url (requestBody w data) with
  | inl _ => None
  | inr req =>
      Some (Header_Set
              (Header_Set req "Content-Type" "application/x-www-form-urlencoded")
              "Authorization" ("Bearer " +:+ token))
  end.

(** The response [client.Do] has given, when it has given one. *)
Definition response_got (w : World) (url token : string) (data : WorkItem)
    : option Response :=
  match request_made w url token data with
  | None => None
  | Some req =>
      match client_Do w req with inl _ => None | inr resp => Some resp end
  end.

(** The body [ioutil.ReadAll] has read on line 118, when it has read one. *)
Definition body_read (w : World) (url token : string) (data : WorkItem)
    : option string :=
  match response_got w url token data with
  | None => None
  | Some resp => match Body resp with inl _ => None | inr body => Some body end
  end.

Definition is_err {A} (r : error + A) : Prop :=
  match r with inl _ => True | inr _ => False end.

Definition construction_fails (w : World) (url token : string)
    (data : WorkItem) : Prop :=
  request_made w url token data = None.

Definition transport_fails (w : World) (url token : string)
    (data : WorkItem) : Prop :=
  ∃ req, request_made w url token data = Some req ∧ is_err (client_Do w req).

Definition read_fails (w : World) (url token : string) (data : WorkItem)
    : Prop :=
  ∃ resp, response_got w url token data = Some resp ∧ is_err (Body resp).

Definition decode_fails (w : World) (url token : string) (data : WorkItem)
    : Prop :=
  ∃ body, body_read w url token data = Some body ∧
          is_err (json_Unmarshal w body).

Definition status_not_200 (w : World) (url token : string) (data : WorkItem)
    : Prop :=
  ∃ resp, response_got w url token data = Some resp ∧
          StatusCode resp ≠ StatusOK.

(** The four conditions under which the specification calls a delivery
    failed. *)
Definition failure_as_specified (w : World) (url token : string)
    (data : WorkItem) : Prop :=
  construction_fails w url token data ∨ transport_fails w url token data ∨
  status_not_200 w url token data ∨ decode_fails w url token data.

(** The world [w] with another decoder. *)
Definition with_decoder (w : World) (unmarshal : string → error + APIResponse)
    : World :=
  {| range_item := range_item w; range_keys := range_keys w;
     QueryEscape := QueryEscape w; url_Parse := url_Parse w;
     client_Do := client_Do w; json_Unmarshal := unmarshal |}.

(** A decoded response with another value in its [STATUS] field. *)
Definition with_Status (status : string) (r : APIResponse) : APIResponse :=
  {| Messages_ := Messages_ r; Data_ := Data_ r; Status_ := status |}.

Definition map_decoded (f : APIResponse → APIResponse)
    (r : error + APIResponse) : error + APIResponse :=
  match r with inl err => inl err | inr x => inr (f x) end.

(** ** The request body, as the specification describes it *)

(** The entries of the item by ascending key. *)
Definition sorted_pairs (data : WorkItem) : list (string * string) :=
  merge_sort (λ a b, String.le a.1 b.1) (map_to_list data).

(** [key=value], both escaped. *)
Definition render (esc : string → string) (kv : string * string) : string :=
  esc kv.1 +:+ "=" +:+ esc kv.2.

(** The pairs by ascending key, joined by ['&']. *)
Definition canonical_body (esc : string → string) (data : WorkItem) : string :=
  String.concat "&" (render esc <$> sorted_pairs data).

(** What follows the first pair in the joined string. *)
Definition and_more (esc : string → string) (ps : list (string * string))
    : string :=
  foldr (λ kv acc, "&" +:+ render esc kv +:+ acc) "" ps.

(** ** Tactics *)

(** Case analysis on a move [H : step t i s = Next s'], one case per
    program point, the state after the move in place of [s']. *)
Ltac step_cases H Ht :=
  unfold step in H;
  match type of H with
  | match threads ?s !! ?t with _ => _ end = _ =>
      destruct (threads s !! t) as [[]|] eqn:Ht; try discriminate H
  end;
  match type of H with
  | match ?i with _ => _ end = _ => destruct i; try discriminate H
  | _ => idtac
  end;
  unfold Lock, Unlock, wg_Add in H;
  repeat match type of H with
  | (if ?c then _ else _) = _ => destruct c eqn:?; try discriminate H
  | match ?c with _ => _ end = _ => destruct c eqn:?; try discriminate H
  | Next (jump _ (if ?c then _ else _) _) = _ => destruct c eqn:?
  end;
  injection H as <-.

(** The fields of a state, by name. *)
Ltac unpack_state s :=
  destruct s as [[qd qm qu qk qf qn] ths cl en de out]; simpl in *.


(** Case analysis on the path [sendToAPI] leaves by. *)
Ltac sendToAPI_cases w url token data :=
  unfold failure_as_specified, construction_fails, transport_fails,
    read_fails, decode_fails, status_not_200, body_read, response_got,
    request_made, sendToAPI in *;
  destruct (http_NewRequest w "POST" url (requestBody w data)) as [e1|req];
  [|destruct (client_Do w _) as [e2|resp] eqn:Hdo;
    [|destruct (Body resp) as [e3|body] eqn:Hbody;
      [|destruct (json_Unmarshal w body) as [e4|r] eqn:Hjson;
        [|destruct (decide (StatusCode resp ≠ StatusOK)) as [Hcode|Hcode]]]]].

(** ** [getFacts] *)

(** The line printed by [getFacts] on the path it leaves by. *)
Inductive FactsReport :=
  | FactsErrCreatingRequest (err : error)
  | FactsErrSendingRequest (err : error)
  | FactsErrResponse (status : string)
  | FactsErrReadingBody (err : error)
  | Facts (body : string).

Definition facts_failed (r : FactsReport) : bool :=
  match r with Facts _ => false | _ => true end.

(** Lines 140-174.  The form and the request are built as in [sendToAPI];
    the status is looked at before the body is read, and the body is
    printed as it is. *)
Definition getFacts (w : World) (apiURL token : string) (params : WorkItem)
    : FactsReport :=
  match http_NewRequest w "POST" apiURL (requestBody w params) with
  | inl err => FactsErrCreatingRequest err
  | inr req =>
    let req := Header_Set req "Content-Type" "application/x-www-form-urlencoded" in
    let req := Header_Set req "Authorization" ("Bearer " +:+ token) in
    match client_Do w req with
    | inl err => FactsErrSendingRequest err
    | inr resp =>
      if decide (StatusCode resp ≠ StatusOK) then FactsErrResponse (Status resp)
      else
        match Body resp with
        | inl err => FactsErrReadingBody err
        | inr body => Facts body
        end
    end
  end.

(** ** The loop that ends [main] *)

(** The two lines the loop prints: the prompt on line 214 and the farewell
    on line 218. *)
Inductive Line := Prompt | Farewell.

(** Lines 213-221.  [stdin] holds what the successive calls of
    [reader.ReadString] return; once it is used up the call returns the
    empty string, with an error the loop does not look at.  [TrimSpace] is
    the library function.  The result is what has been printed after at
    most [fuel] rounds and whether the loop has been left. *)
Fixpoint exit_loop (TrimSpace : string → string) (fuel : nat)
    (stdin : list string) : list Line * bool :=
  match fuel with
  | O => ([], false)
  | S fuel =>
      let input := TrimSpace (hd ""%string stdin) in
      if decide (input = "exit"%string) then ([Prompt; Farewell], true)
      else
        let '(out, ended) := exit_loop TrimSpace fuel (tl stdin) in
        (Prompt :: out, ended)
  end.

(** The white space of [strings.TrimSpace] among the ASCII characters. *)
Definition ascii_space (a : ascii) : bool :=
  match a with
  | " " | "009" | "010" | "011" | "012" | "013" => true
  | _ => false
  end%char.

Fixpoint drop_spaces (s : string) : string :=
  match s with
  | String a s' => if ascii_space a then drop_spaces s' else s
  | EmptyString => EmptyString
  end.

(** [strings.TrimSpace] on input that has no white space outside ASCII. *)
Definition trim_ascii (s : string) : string :=
  String.rev (drop_spaces (String.rev (drop_spaces s))).

(** ** More about the dispatcher *)

(** Points at which the goroutine relies on a queue that is not empty: an
    [Add] after its append, and a [sendData] before its first test. *)
Definition expects_item (p : pc) : bool :=
  match p with
  | Add63 | Add64 | Add65 | Add66 | Send73 | Send74 => true
  | _ => false
  end.

(** A [sendData] goroutine that has not yet called [sendToAPI]. *)
Definition before_call (p : pc) : nat :=
  match p with
  | Send73 | Send74 | Send75 | Send76 | Send79 | Send80 _ | Send81 _
  | Send83 _ => 1
  | _ => 0
  end.

(** What holds beside [Inv] in a system of [n] producers. *)
Record Inv2 (n : nat) (s : System) : Prop := {
  inv2_item : ∀ t p, threads s !! t = Some p → expects_item p = true →
                     data (buf s) ≠ [];
  inv2_dead : ∀ t p, threads s !! t = Some p → p ≠ Send75 ∧ p ≠ Send76;
  inv2_goroutines :
    length (threads s)
    = (n + length (delivered s) + tally before_call (threads s))%nat;
  inv2_stdout :
    (length (stdout s) + tally in_api (threads s))%nat = length (delivered s)
}.

(** The moves the holder of the mutex makes, at most, before it has
    released it. *)
Definition to_unlock (p : pc) : nat :=
  match p with
  | Add62 _ => 6 | Add63 => 5 | Add64 => 4 | Add65 => 3 | Add66 => 2
  | Add61d => 1
  | Send74 => 4 | Send75 => 2 | Send76 => 1 | Send79 => 3 | Send80 _ => 2
  | Send81 _ => 1
  | Send87 => 4 | Send88 => 2 | Send90 => 3 | Send91 => 2 | Send86d => 1
  | _ => 0
  end.

(** Two producers: the second has called [Add] and appended its item, the
    first has called [wg.Wait]. *)
Definition racing : System :=
  default (init main_url main_token 2)
    (run ((1%nat, CallAdd (main_item 0)) :: moves 1 2 ++ [(0%nat, CallWait)])
       (init main_url main_token 2)).

(** From [handed_over] both [sendData] goroutines have run to their end,
    the second delivering the second item, and [main] has called
    [wg.Wait]. *)
Definition drained_waiting : System :=
  default handed_over
    (run (moves 1 2 ++ moves 2 6 ++ [(2%nat, Return (answering 200 "200 OK" "{}"))]
          ++ moves 2 5 ++ [(0%nat, CallWait)])
       handed_over).

(** The calls on the wait group that the runtime checks against a
    concurrent [Wait]: the [wg.Add(1)] of [Add], which can raise the
    counter from zero, the [wg.Done()], which can bring it to zero, and
    [wg.Wait()] itself.  The [wg.Add(1)] on line 90 is made by a [sendData]
    goroutine that is itself counted, so it never starts from zero. *)
Definition checked (p : pc) : bool :=
  match p with Add65 | Send72d | Wait209 => true | _ => false end.

(** The end of a line read from the terminal. *)
Definition newline : string := String "010"%char "".

(** The response [getFacts] gets is read as a body only when its status is
    200. *)
Definition facts_read_fails (w : World) (url token : string)
    (params : WorkItem) : Prop :=
  ∃ resp, response_got w url token params = Some resp ∧
          StatusCode resp = StatusOK ∧ is_err (Body resp).

(** Case analysis on the path [getFacts] leaves by. *)
Ltac getFacts_cases w url token data :=
  unfold facts_read_fails, construction_fails, transport_fails,
    status_not_200, response_got, request_made, getFacts, sendToAPI in *;
  destruct (http_NewRequest w "POST" url (requestBody w data)) as [e1|req];
  [|destruct (client_Do w _) as [e2|resp] eqn:Hdo;
    [|destruct (decide (StatusCode resp ≠ StatusOK)) as [Hcode|Hcode];
      destruct (Body resp) as [e3|body] eqn:Hbody]].
(** * Proofs *)

Section tally.
Implicit Types (f g : pc → nat) (l : list pc).

Lemma tally_nil f : tally f [] = 0%nat.
Proof. done. Qed.

Lemma tally_cons f p l : tally f (p :: l) = (f p + tally f l)%nat.
Proof. done. Qed.

Lemma tally_app f l1 l2 : tally f (l1 ++ l2) = (tally f l1 + tally f l2)%nat.
Proof. apply sum_list_with_app. Qed.

Lemma tally_snoc f l p : tally f (l ++ [p]) = (tally f l + f p)%nat.
Proof. rewrite tally_app, tally_cons, tally_nil. lia. Qed.

Lemma tally_lookup f l t p :
  l !! t = Some p → tally f l = (f p + tally f (delete t l))%nat.
Proof.
  revert t. induction l as [|q l IH]; intros [|t] Ht; try done.
  - by injection Ht as ->.
  - change (delete (S t) (q :: l)) with (q :: delete t l).
    rewrite !tally_cons, (IH t Ht). lia.
Qed.

Lemma tally_insert f l t p p' :
  l !! t = Some p →
  tally f (<[t:=p']> l) = (f p' + tally f (delete t l))%nat.
Proof.
  revert t. induction l as [|q l IH]; intros [|t] Ht; try done.
  change (<[S t:=p']> (q :: l)) with (q :: <[t:=p']> l).
  change (delete (S t) (q :: l)) with (q :: delete t l).
  rewrite !tally_cons, (IH t Ht). lia.
Qed.

Lemma tally_delete_other f l t j q :
  l !! j = Some q → j ≠ t → (f q ≤ tally f (delete t l))%nat.
Proof.
  revert t j. induction l as [|r l IH]; intros [|t] [|j] Hj Hne; try done.
  - change (delete 0%nat (r :: l)) with l.
    rewrite (tally_lookup f l j q Hj). lia.
  - change (delete (S t) (r :: l)) with (r :: delete t l).
    injection Hj as ->. rewrite tally_cons. lia.
  - change (delete (S t) (r :: l)) with (r :: delete t l).
    rewrite tally_cons. assert (j ≠ t) as Hjt by congruence.
    specialize (IH t j Hj Hjt). lia.
Qed.

Lemma tally_mono f g l :
  (∀ p, (f p ≤ g p)%nat) → (tally f l ≤ tally g l)%nat.
Proof.
  intros Hfg. induction l as [|p l IH]; [done|].
  rewrite !tally_cons. specialize (Hfg p). lia.
Qed.

Lemma tally_replicate f n p : tally f (replicate n p) = (n * f p)%nat.
Proof.
  induction n as [|n IH]; [done|].
  change (replicate (S n) p) with (p :: replicate n p).
  rewrite tally_cons, IH. lia.
Qed.

Lemma tally_zero_lookup f l j q :
  tally f l = 0%nat → l !! j = Some q → f q = 0%nat.
Proof. intros Hz Hj. rewrite (tally_lookup f l j q Hj) in Hz. lia. Qed.
End tally.

Section bind.
Context {A : Type} (h : pc → list A).
Implicit Types (l : list pc).

Lemma bind_lookup_split l t p :
  l !! t = Some p →
  l ≫= h = (take t l ≫= h) ++ h p ++ (drop (S t) l ≫= h).
Proof.
  intros Ht. rewrite <-(take_drop_middle l t p Ht) at 1.
  by rewrite bind_app, bind_cons.
Qed.

Lemma bind_insert_split l t p p' :
  l !! t = Some p →
  <[t:=p']> l ≫= h = (take t l ≫= h) ++ h p' ++ (drop (S t) l ≫= h).
Proof.
  intros Ht. pose proof (lookup_lt_Some _ _ _ Ht) as Hlt.
  rewrite (bind_lookup_split (<[t:=p']> l) t p')
    by (by apply list_lookup_insert_eq).
  rewrite take_insert_ge, drop_insert_lt by lia. done.
Qed.

Lemma bind_insert_same l t p p' :
  l !! t = Some p → h p = h p' → <[t:=p']> l ≫= h = l ≫= h.
Proof.
  intros Ht Heq.
  by rewrite (bind_insert_split l t p p' Ht), (bind_lookup_split l t p Ht), Heq.
Qed.

Lemma bind_weightless (f : pc → nat) l :
  (∀ p, f p = 0%nat → h p = []) → tally f l = 0%nat → l ≫= h = [].
Proof.
  intros Hf. induction l as [|p l IH]; [done|].
  rewrite tally_cons, bind_cons. intros Hz.
  rewrite (Hf p), IH by lia. done.
Qed.

Lemma bind_sole (f : pc → nat) l t p :
  (∀ p, f p = 0%nat → h p = []) →
  l !! t = Some p → tally f (delete t l) = 0%nat →
  l ≫= h = h p ∧ ∀ p', <[t:=p']> l ≫= h = h p'.
Proof.
  intros Hf Ht Hz. rewrite delete_take_drop, tally_app in Hz.
  assert (take t l ≫= h = []) as Hl by (apply (bind_weightless f); [done|lia]).
  assert (drop (S t) l ≫= h = []) as Hr
    by (apply (bind_weightless f); [done|lia]).
  split; [|intros p'].
  - by rewrite (bind_lookup_split l t p Ht), Hl, Hr, app_nil_r.
  - by rewrite (bind_insert_split l t p p' Ht), Hl, Hr, app_nil_r.
Qed.
End bind.

Lemma in_hand_draining p : draining p = 0%nat → in_hand p = [].
Proof. by destruct p. Qed.

Lemma to_append_producer p : producer p = 0%nat → to_append p = [].
Proof. by destruct p. Qed.

Lemma knows_unlocked p b : holds_lock p = 0%nat → knows p b.
Proof. by destruct p. Qed.

Lemma knows_frame p b b' :
  data b' = data b → isSending b' = isSending b → knows p b → knows p b'.
Proof. intros Hd Hs. destruct p; simpl; by rewrite ?Hd, ?Hs. Qed.

Lemma Inv_init apiURL tok n : Inv (init apiURL tok n).
Proof.
  split; simpl; rewrite ?tally_replicate; simpl.
  - lia.
  - lia.
  - unfold tracked. simpl. lia.
  - intros t p Ht. apply lookup_replicate in Ht as [-> _]. done.
  - rewrite (bind_weightless in_hand draining), app_nil_r;
      [done|apply in_hand_draining|]. rewrite tally_replicate. simpl. lia.
  - done.
Qed.

Lemma tally_insert_snoc f l t p p' q :
  l !! t = Some p →
  tally f (<[t:=p']> (l ++ [q])) = (f p' + tally f (delete t l) + f q)%nat.
Proof.
  intros Ht. rewrite insert_app_l by (by eapply lookup_lt_Some).
  by rewrite tally_snoc, (tally_insert f l t p p' Ht).
Qed.

Lemma lookup_insert_pc_Some (l : list pc) t p' j r :
  <[t:=p']> l !! j = Some r → (j = t ∧ r = p') ∨ (j ≠ t ∧ l !! j = Some r).
Proof.
  intros Hj. apply list_lookup_insert_Some in Hj as [(-> & <- & _)|(Hne & Hj)];
    eauto.
Qed.

Lemma lookup_insert_snoc_Some (l : list pc) t p' q j r :
  <[t:=p']> (l ++ [q]) !! j = Some r →
  (j = t ∧ r = p') ∨ (j ≠ t ∧ l !! j = Some r) ∨ r = q.
Proof.
  intros Hj. apply lookup_insert_pc_Some in Hj as [?|[Hne Hj]]; [by left|].
  apply lookup_snoc_Some in Hj as [[_ Hj]|[_ <-]]; eauto.
Qed.

Lemma step_inv s t i s' : Inv s → step t i s = Next s' → Inv s'.
Proof.
  intros [Hmu Htok Hwg Hkn Hfifo Hflag] H. step_cases H Ht.
  all: pose proof (Hkn _ _ Ht) as Hk.
  all: pose proof (tally_lookup holds_lock _ _ _ Ht) as Eh.
  all: pose proof (tally_lookup draining _ _ _ Ht) as Ed.
  all: pose proof (tally_lookup tracked _ _ _ Ht) as Et.
  all: pose proof (tally_lookup unflagged _ _ _ Ht) as Eu.
  all: destruct s as [[qd qm qu qk qf qn] ths cl en de out]; simpl in *.
  all: split; simpl.
  all: rewrite ?(tally_insert_snoc _ _ _ _ _ _ Ht), ?(tally_insert _ _ _ _ _ Ht).
  all: unfold tracked in *; simpl in *.
  all: try (destruct qm, qf; simpl in *; simplify_eq; lia).
  (* what each goroutine knows *)
  all: try (intros j r Hj;
    let own := (simpl; first [ done | by destruct qd | by eauto ]) in
    let other Hne Hj :=
      (first [ by (eapply knows_frame; [| |eapply Hkn; exact Hj])
             | apply knows_unlocked;
               pose proof (tally_delete_other holds_lock _ t _ _ Hj Hne);
               destruct qm; simpl in *; lia ]) in
    first [ apply lookup_insert_snoc_Some in Hj as [[? ->]|[[Hne Hj]| ->]];
            [own|other Hne Hj|exact I]
          | apply lookup_insert_pc_Some in Hj as [[? ->]|[Hne Hj]];
            [own|other Hne Hj] ]).
  (* the queue is what was appended and not yet taken *)
  all: try (rewrite ?insert_app_l by (by eapply lookup_lt_Some);
    rewrite ?bind_app, ?bind_cons, ?bind_nil; simpl; rewrite ?app_nil_r;
    first [ rewrite (bind_insert_same in_hand _ _ _ _ Ht) by done
          | let E1 := fresh in let E2 := fresh in
            destruct (bind_sole in_hand draining ths t _ in_hand_draining Ht)
              as [E1 E2]; [destruct qf; simpl in *; lia|];
            rewrite E2; rewrite E1 in Hfifo; simpl in * ];
    try lazymatch type of Hk with ex _ => destruct Hk as [? Hk] end;
    subst en; simplify_eq/=;
    rewrite <-?app_assoc; done).
  (* a non-empty queue has someone in charge *)
  all: try (intros Hd; try specialize (Hflag Hd); destruct qm, qf; simpl in *;
            simplify_eq; try done; try lia; by (left + (right; destruct Hflag; [done|lia]))).
Qed.

Lemma reachable_Inv n s : reachable n s → Inv s.
Proof.
  induction 1 as [apiURL tok|s t i s' _ IH Hstep].
  - apply Inv_init.
  - by eapply step_inv.
Qed.

Lemma run_reachable n sched s s' :
  reachable n s → run sched s = Some s' → reachable n s'.
Proof.
  revert s. induction sched as [|[t i] sched IH]; intros s Hs Hrun; simpl in Hrun.
  - by injection Hrun as <-.
  - destruct (step t i s) as [s1| | |] eqn:Hstep; try done.
    eapply IH; [|done]. by eapply reachable_step.
Qed.

Lemma run_app sched1 sched2 s :
  run (sched1 ++ sched2) s = run sched1 s ≫= run sched2.
Proof.
  revert s. induction sched1 as [|[t i] sched1 IH]; intros s; simpl; [done|].
  by destruct (step t i s).
Qed.

Lemma tally_pos_lookup f l :
  (0 < tally f l)%nat → ∃ t p, l !! t = Some p ∧ (0 < f p)%nat.
Proof.
  induction l as [|p l IH]; rewrite ?tally_nil, ?tally_cons; [lia|].
  intros Hpos. destruct (decide (0 < f p)%nat) as [Hp|Hp].
  - by exists 0%nat, p.
  - destruct IH as (t & q & Ht & Hq); [lia|]. by exists (S t), q.
Qed.

Lemma tally_lookup_le f l t p : l !! t = Some p → (f p ≤ tally f l)%nat.
Proof. intros Ht. rewrite (tally_lookup f l t p Ht). lia. Qed.

(** No move makes [step] answer [Panic]: the mutex is not unlocked while
    free, the counter does not go below zero, the queue is not indexed
    while empty. *)
Lemma step_no_panic s t i : Inv s → step t i s ≠ Panic.
Proof.
  intros [Hmu Htok Hwg Hkn Hfifo Hflag]. unfold step.
  destruct (threads s !! t) as [p|] eqn:Ht; [|done].
  pose proof (Hkn _ _ Ht) as Hk.
  pose proof (tally_lookup_le holds_lock _ _ _ Ht) as Eh.
  pose proof (tally_lookup_le tracked _ _ _ Ht) as Et.
  destruct s as [[qd qm qu qk qf qn] ths cl en de out]; simpl in *.
  destruct p, i; try done; unfold Lock, Unlock, wg_Add; simpl in *;
    repeat case_match; try done; simplify_eq/=;
    try (lazymatch type of Hk with ex _ => destruct Hk as [? ?]; done end);
    unfold tracked in *; simpl in *; lia.
Qed.

(** Every move that is not a new call lowers the measure. *)
Lemma step_measure s t i s' :
  step t i s = Next s' → external i = false → (measure s' < measure s)%nat.
Proof.
  intros H Hi. step_cases H Ht; try discriminate Hi.
  all: pose proof (tally_lookup weight _ _ _ Ht) as Ew.
  all: destruct s as [[qd qm qu qk qf qn] ths cl en de out]; unfold measure;
    simpl in *.
  all: rewrite ?(tally_insert_snoc _ _ _ _ _ _ Ht), ?(tally_insert _ _ _ _ _ Ht).
  all: simplify_eq/=; rewrite ?length_app; simpl; lia.
Qed.

Lemma weight_zero p : weight p = 0%nat → p = Idle ∨ p = Exited.
Proof. destruct p; simpl; try lia; eauto. Qed.

Lemma measure_zero_settled s : measure s = 0%nat → settled s.
Proof.
  unfold measure. intros Hz t p Ht. apply weight_zero.
  apply (tally_zero_lookup weight (threads s) t p); [lia|done].
Qed.

Lemma first_move_Some w s t0 ps s' :
  first_move w s t0 ps = Some s' →
  ∃ t p, ps !! (t - t0)%nat = Some p ∧ (t0 ≤ t)%nat ∧
         step t (input_at w p) s = Next s'.
Proof.
  revert t0. induction ps as [|p ps IH]; intros t0 H; simpl in H; [done|].
  destruct (step t0 (input_at w p) s) as [s1| | |] eqn:Hstep.
  - injection H as <-. exists t0, p. by rewrite Nat.sub_diag.
  - destruct (IH _ H) as (t & q & Hq & Hle & Hs). exists t, q.
    replace (t - t0)%nat with (S (t - S t0)) by lia. split_and!; [done|lia|done].
  - destruct (IH _ H) as (t & q & Hq & Hle & Hs). exists t, q.
    replace (t - t0)%nat with (S (t - S t0)) by lia. split_and!; [done|lia|done].
  - destruct (IH _ H) as (t & q & Hq & Hle & Hs). exists t, q.
    replace (t - t0)%nat with (S (t - S t0)) by lia. split_and!; [done|lia|done].
Qed.

Lemma first_move_None w s t0 ps :
  first_move w s t0 ps = None →
  ∀ k p, ps !! k = Some p → ∀ s', step (t0 + k) (input_at w p) s ≠ Next s'.
Proof.
  revert t0. induction ps as [|q ps IH]; intros t0 H k p Hk s'; [done|].
  simpl in H. destruct (step t0 (input_at w q) s) as [s1| | |] eqn:Hstep; try done.
  all: destruct k as [|k]; simplify_eq/=;
    [rewrite Nat.add_0_r; congruence
    |replace (t0 + S k)%nat with (S t0 + k)%nat by lia; by eapply IH].
Qed.

Lemma input_at_internal w p : external (input_at w p) = false.
Proof. by destruct p. Qed.

(** The goroutine that holds the mutex can always execute its next
    statement. *)
Lemma holder_moves w s t p :
  Inv s → threads s !! t = Some p → holds_lock p = 1%nat →
  ∃ s', step t (input_at w p) s = Next s'.
Proof.
  intros [Hmu Htok Hwg Hkn Hfifo Hflag] Ht Hp. unfold step. rewrite Ht.
  pose proof (Hkn _ _ Ht) as Hk.
  pose proof (tally_lookup_le holds_lock _ _ _ Ht) as Eh.
  unpack_state s.
  destruct p; try discriminate Hp; simpl; unfold Unlock, wg_Add; simpl in *;
    repeat case_match; simplify_eq/=; eauto;
    try (lazymatch type of Hk with ex _ => destruct Hk as [? ?]; done end);
    lia.
Qed.

(** With the mutex free, a [sendData] goroutine can always move. *)
Lemma live_moves w s t p :
  Inv s → mu (buf s) = false → threads s !! t = Some p → (0 < tracked p)%nat →
  ∃ s', step t (input_at w p) s = Next s'.
Proof.
  intros [Hmu Htok Hwg Hkn Hfifo Hflag] Hfree Ht Hp. unfold step. rewrite Ht.
  pose proof (tally_lookup_le holds_lock _ _ _ Ht) as Eh.
  pose proof (tally_lookup_le tracked _ _ _ Ht) as Et.
  unpack_state s. subst qm. unfold tracked in *.
  destruct p; simpl in *; try lia; unfold Lock, wg_Add; simpl;
    repeat case_match; simplify_eq/=; eauto; lia.
Qed.

(** As long as something is in progress, some goroutine can move. *)
Lemma progress w s t p :
  Inv s → threads s !! t = Some p → p ≠ Idle → p ≠ Exited →
  ∃ t' p' s', threads s !! t' = Some p' ∧ step t' (input_at w p') s = Next s'.
Proof.
  intros HI Ht Hidle Hexit. destruct (mu (buf s)) eqn:Hm.
  - destruct (tally_pos_lookup holds_lock (threads s)) as (t' & p' & Ht' & Hp').
    { rewrite (inv_mutex s HI), Hm. simpl. lia. }
    destruct (holder_moves w s t' p' HI Ht') as [s' Hs'].
    { destruct p'; simpl in *; lia. }
    by exists t', p', s'.
  - destruct (decide (0 < tracked p)%nat) as [Hp|Hp].
    { destruct (live_moves w s t p HI Hm Ht Hp) as [s' Hs']. by exists t, p, s'. }
    pose proof (tally_lookup_le holds_lock _ _ _ Ht) as Eh.
    rewrite (inv_mutex s HI), Hm in Eh. simpl in Eh.
    destruct p; unfold tracked in Hp; simpl in *; try lia; try done.
    + exists t, (Add60 item). unfold step, Lock. rewrite Ht, Hm. eauto.
    + destruct (decide (wg (buf s) = 0)) as [Hz|Hz].
      * exists t, Wait209. unfold step. rewrite Ht. simpl.
        rewrite decide_True by done. eauto.
      * destruct (tally_pos_lookup tracked (threads s)) as (t' & p' & Ht' & Hp').
        { pose proof (inv_wg s HI). lia. }
        destruct (live_moves w s t' p' HI Hm Ht' Hp') as [s' Hs'].
        by exists t', p', s'.
Qed.

Lemma first_move_None_settled w s :
  Inv s → first_move w s 0 (threads s) = None → settled s.
Proof.
  intros HI Hnone t p Ht.
  destruct (decide (p = Idle)) as [|Hidle]; [by left|].
  destruct (decide (p = Exited)) as [|Hexit]; [by right|].
  destruct (progress w s t p HI Ht Hidle Hexit) as (t' & p' & s' & Ht' & Hs').
  by destruct (first_move_None w s 0 (threads s) Hnone t' p' Ht' s').
Qed.

Lemma first_move_step w s s' :
  first_move w s 0 (threads s) = Some s' →
  ∃ t i, step t i s = Next s' ∧ external i = false.
Proof.
  intros H. destruct (first_move_Some w s 0 _ s' H) as (t & p & _ & _ & Hs).
  exists t, (input_at w p). split; [done|apply input_at_internal].
Qed.

Lemma step_internal_called s t i s' :
  step t i s = Next s' → external i = false → called s' = called s.
Proof. intros H Hi. step_cases H Ht; try discriminate Hi; done. Qed.

Lemma drain_reachable n w fuel s : reachable n s → reachable n (drain fuel w s).
Proof.
  revert s. induction fuel as [|fuel IH]; intros s Hs; simpl; [done|].
  destruct (first_move w s 0 (threads s)) as [s'|] eqn:Hm; [|done].
  destruct (first_move_step w s s' Hm) as (t & i & Hstep & _).
  apply IH. by eapply reachable_step.
Qed.

Lemma drain_called w fuel s : called (drain fuel w s) = called s.
Proof.
  revert s. induction fuel as [|fuel IH]; intros s; simpl; [done|].
  destruct (first_move w s 0 (threads s)) as [s'|] eqn:Hm; [|done].
  destruct (first_move_step w s s' Hm) as (t & i & Hstep & Hi).
  rewrite IH. by eapply step_internal_called.
Qed.

(** With fuel for the measure, the run ends with nothing in progress. *)
Lemma drain_settled w fuel s :
  Inv s → (measure s ≤ fuel)%nat → settled (drain fuel w s).
Proof.
  revert s. induction fuel as [|fuel IH]; intros s HI Hfuel; simpl.
  - apply measure_zero_settled. lia.
  - destruct (first_move w s 0 (threads s)) as [s'|] eqn:Hm.
    + destruct (first_move_step w s s' Hm) as (t & i & Hstep & Hi).
      pose proof (step_measure s t i s' Hstep Hi).
      apply IH; [by eapply step_inv|lia].
    + by eapply first_move_None_settled.
Qed.

Lemma settled_tally f s :
  settled s → f Idle = 0%nat → f Exited = 0%nat → tally f (threads s) = 0%nat.
Proof.
  unfold settled. generalize (threads s). intros l Hl HI HE.
  induction l as [|p l IH]; [done|]. rewrite tally_cons, IH.
  - destruct (Hl 0%nat p eq_refl) as [->| ->]; lia.
  - intros t q Ht. by apply (Hl (S t) q).
Qed.

(** When nothing is in progress the buffer is at rest and every item that
    was appended has been passed to [sendToAPI]. *)
Lemma settled_rest s :
  Inv s → settled s →
  delivered s = enqueued s ∧ data (buf s) = [] ∧ isSending (buf s) = false ∧
  mu (buf s) = false ∧ wg (buf s) = 0.
Proof.
  intros [Hmu Htok Hwg Hkn Hfifo Hflag] Hs.
  rewrite (settled_tally holds_lock s Hs) in Hmu by done.
  rewrite (settled_tally draining s Hs) in Htok by done.
  rewrite (settled_tally tracked s Hs) in Hwg by done.
  pose proof (settled_tally unflagged s Hs eq_refl eq_refl) as Hu.
  pose proof (settled_tally draining s Hs eq_refl eq_refl) as Hd.
  rewrite (bind_weightless in_hand draining _ in_hand_draining Hd) in Hfifo.
  assert (isSending (buf s) = false) as Hf by (by destruct (isSending (buf s))).
  assert (data (buf s) = []) as Hdata.
  { destruct (data (buf s)) as [|x l] eqn:E; [done|].
    destruct Hflag as [?|?]; [done|congruence|lia]. }
  rewrite Hdata, app_nil_r in Hfifo. simpl in Hfifo.
  split_and!; try done. by destruct (mu (buf s)).
Qed.

(** ** A single producer *)

Lemma Inv1_init apiURL tok : Inv1 (init apiURL tok 1).
Proof. by split. Qed.

Lemma step_inv1 s t i s' : Inv1 s → step t i s = Next s' → Inv1 s'.
Proof.
  intros [Hp Hc] H. step_cases H Ht.
  all: pose proof (tally_lookup producer _ _ _ Ht) as Ep.
  all: unpack_state s; split; simpl.
  all: rewrite ?(tally_insert_snoc _ _ _ _ _ _ Ht), ?(tally_insert _ _ _ _ _ Ht).
  all: simpl in *; try lia.
  all: rewrite ?insert_app_l by (by eapply lookup_lt_Some);
    rewrite ?bind_app, ?bind_cons, ?bind_nil; simpl; rewrite ?app_nil_r;
    first [ by rewrite (bind_insert_same to_append _ _ _ _ Ht) by done
          | destruct (bind_sole to_append producer ths t _ to_append_producer Ht)
              as [E1 E2]; [lia|];
            rewrite E2; rewrite E1 in Hc; simpl in *;
            subst cl; rewrite <-?app_assoc, ?app_nil_r; done ].
Qed.

Lemma reachable_Inv1 s : reachable 1 s → Inv1 s.
Proof.
  induction 1 as [apiURL tok|s t i s' _ IH Hstep].
  - apply Inv1_init.
  - by eapply step_inv1.
Qed.
Lemma run_internal_measure sched s s' :
  run sched s = Some s' → Forall (λ m, external m.2 = false) sched →
  (measure s' + length sched ≤ measure s)%nat.
Proof.
  revert s. induction sched as [|[t i] sched IH]; intros s Hrun Hint; simpl in *.
  - injection Hrun as <-. lia.
  - destruct (step t i s) as [s1| | |] eqn:Hstep; try done.
    apply Forall_cons in Hint as [Hi Hint]. simpl in Hi.
    pose proof (step_measure s t i s1 Hstep Hi).
    specialize (IH s1 Hrun Hint). lia.
Qed.

Lemma run_internal_called sched s s' :
  run sched s = Some s' → Forall (λ m, external m.2 = false) sched →
  called s' = called s.
Proof.
  revert s. induction sched as [|[t i] sched IH]; intros s Hrun Hint; simpl in *.
  - by injection Hrun as <-.
  - destruct (step t i s) as [s1| | |] eqn:Hstep; try done.
    apply Forall_cons in Hint as [Hi Hint]. simpl in Hi.
    rewrite (IH s1 Hrun Hint). by eapply step_internal_called.
Qed.

(** A state in which no goroutine can move without a new call has nothing
    in progress. *)
Lemma stuck_settled s :
  Inv s → (∀ t i s', external i = false → step t i s ≠ Next s') → settled s.
Proof.
  intros HI Hstuck t p Ht.
  destruct (decide (p = Idle)) as [|Hidle]; [by left|].
  destruct (decide (p = Exited)) as [|Hexit]; [by right|].
  destruct (progress unreachable s t p HI Ht Hidle Hexit)
    as (t' & p' & s' & Ht' & Hs').
  by destruct (Hstuck t' _ s' (input_at_internal unreachable p')).
Qed.

Lemma settled_bind {A} (h : pc → list A) s :
  settled s → h Idle = [] → h Exited = [] → threads s ≫= h = [].
Proof.
  unfold settled. generalize (threads s). intros l Hl HI HE.
  induction l as [|p l IH]; [done|]. rewrite bind_cons, IH.
  - destruct (Hl 0%nat p eq_refl) as [->| ->]; by rewrite ?HI, ?HE.
  - intros t q Ht. by apply (Hl (S t) q).
Qed.

Lemma prefix_lookup {A} (l k : list A) i x :
  l !! i = Some x → (l ++ k) !! i = Some x.
Proof. apply lookup_app_l_Some. Qed.

(** C1 (FIFO for a single producer).  With one producer goroutine, the
    items [Add] was called with are, in the order of the calls, the items
    passed to [sendToAPI], then the item in the hand of [sendData], then the
    queue, then the item of a call that has not appended yet; so the k-th
    call of [sendToAPI] is on the k-th item [Add] was called with.  Every
    run without new calls has at most [measure s] moves, when it can go no
    further every item has been passed to [sendToAPI], and [drain] is such
    a run. *)
Theorem fifo_single_producer s :
  reachable 1 s →
  called s
    = delivered s ++ (threads s ≫= in_hand) ++ data (buf s)
      ++ (threads s ≫= to_append)
  ∧ (∀ k item, delivered s !! k = Some item → called s !! k = Some item)
  ∧ (∀ sched s', run sched s = Some s' →
       Forall (λ m, external m.2 = false) sched →
       (length sched ≤ measure s)%nat ∧
       ((∀ t i s'', external i = false → step t i s' ≠ Next s'') →
        delivered s' = called s))
  ∧ (∀ w, let s' := drain (measure s) w s in
       reachable 1 s' ∧ settled s' ∧ delivered s' = called s).
Proof.
  intros Hs. pose proof (reachable_Inv 1 s Hs) as HI.
  pose proof (reachable_Inv1 s Hs) as [_ Hc].
  assert (called s = delivered s ++ (threads s ≫= in_hand) ++ data (buf s)
                     ++ (threads s ≫= to_append)) as Heq.
  { rewrite Hc, (inv_fifo s HI). by rewrite <-!app_assoc. }
  assert (∀ s', reachable 1 s' → settled s' → called s' = called s →
                delivered s' = called s) as Hend.
  { intros s' Hs' Hset <-.
    pose proof (reachable_Inv 1 s' Hs') as HI'.
    destruct (settled_rest s' HI' Hset) as (-> & _).
    rewrite (inv1_called s' (reachable_Inv1 s' Hs')).
    by rewrite (settled_bind to_append s' Hset), app_nil_r. }
  split_and!; [done| | |].
  - intros k item Hk. rewrite Heq. by apply prefix_lookup.
  - intros sched s' Hrun Hint. split.
    + pose proof (run_internal_measure sched s s' Hrun Hint). lia.
    + intros Hstuck. apply Hend.
      * by eapply run_reachable.
      * apply stuck_settled; [|done]. eapply reachable_Inv, run_reachable; done.
      * by eapply run_internal_called.
  - intros w s'. split_and!.
    + by apply drain_reachable.
    + by apply drain_settled.
    + apply Hend; [by apply drain_reachable|by apply drain_settled|apply drain_called].
Qed.
Lemma run_default_reachable n sched s :
  reachable n s → reachable n (default s (run sched s)).
Proof.
  intros Hs. destruct (run sched s) as [s'|] eqn:Hrun; simpl; [|done].
  by eapply run_reachable.
Qed.

Lemma fifo_single_producer_witness :
  reachable 1 after_main ∧
  delivered (drain (measure after_main) (answering 200 "200 OK" "{}") after_main)
    = main_items.
Proof.
  assert (reachable 1 after_main) as Hr
    by apply run_default_reachable, reachable_init.
  split; [exact Hr|].
  destruct (fifo_single_producer after_main Hr) as (_ & _ & _ & Hd).
  destruct (Hd (answering 200 "200 OK" "{}")) as (_ & _ & Hd').
  rewrite Hd'. apply (bool_decide_eq_true_1 _). vm_compute. reflexivity.
Defined.

Lemma in_hand_length l : (length (l ≫= in_hand) ≤ tally draining l)%nat.
Proof.
  induction l as [|p l IH]; [done|].
  rewrite bind_cons, length_app, tally_cons. destruct p; simpl; lia.
Qed.

(** What a move does to the queue and to the record of deliveries. *)
Lemma step_queue s t i s' :
  step t i s = Next s' →
  (data (buf s') = data (buf s) ∨
   (∃ item, threads s !! t = Some (Add62 item) ∧
            data (buf s') = data (buf s) ++ [item]) ∨
   (∃ item, threads s !! t = Some (Send80 item) ∧
            ∃ head, data (buf s) = head :: data (buf s')))
  ∧ (delivered s' = delivered s ∨
     ∃ item, threads s !! t = Some (Send83 item) ∧
             delivered s' = delivered s ++ [item]).
Proof.
  intros H. step_cases H Ht; simpl; split; eauto 10.
Qed.

(** The return of a [sendToAPI] call, whatever the world answered. *)
Lemma step_return s t item w :
  threads s !! t = Some (InAPI item) →
  step t (Return w) s
  = Next (jump t Send85
            (print (sendToAPI w (url (buf s)) (token (buf s)) item) s)).
Proof. intros Ht. unfold step. by rewrite Ht. Qed.

(** Every item [Add] was called with has been appended, or is the item of
    a call that has not appended yet. *)
Lemma step_called s t i s' :
  called s ≡ₚ enqueued s ++ (threads s ≫= to_append) →
  step t i s = Next s' →
  called s' ≡ₚ enqueued s' ++ (threads s' ≫= to_append).
Proof.
  intros Hc H. step_cases H Ht.
  all: rewrite (bind_lookup_split to_append _ _ _ Ht) in Hc.
  all: unpack_state s.
  all: rewrite ?insert_app_l by (by eapply lookup_lt_Some);
    rewrite ?bind_app, ?bind_cons, ?bind_nil;
    rewrite (bind_insert_split to_append _ _ _ _ Ht); simpl in *;
    rewrite ?app_nil_r; try done.
  - rewrite Hc, <-!app_assoc. do 2 f_equiv. symmetry.
    apply Permutation_cons_append.
  - rewrite Hc, <-!app_assoc. f_equiv. symmetry.
    exact (Permutation_middle _ _ _).
Qed.

Lemma reachable_called n s :
  reachable n s → called s ≡ₚ enqueued s ++ (threads s ≫= to_append).
Proof.
  induction 1 as [apiURL tok|s t i s' _ IH Hstep]; [|by eapply step_called].
  simpl. by induction n.
Qed.

(** No item has been passed to [sendToAPI] more often than [Add] was
    called with it. *)
Lemma delivered_called n s : reachable n s → delivered s ⊆+ called s.
Proof.
  intros Hs. rewrite (reachable_called n s Hs).
  rewrite (inv_fifo s (reachable_Inv n s Hs)), <-!app_assoc.
  by apply submseteq_inserts_r.
Qed.

Lemma settled_called n s :
  reachable n s → settled s → delivered s ≡ₚ called s ∧ data (buf s) = [].
Proof.
  intros Hs Hset. pose proof (reachable_called n s Hs) as Hc.
  rewrite (settled_bind to_append s Hset), app_nil_r in Hc by done.
  destruct (settled_rest s (reachable_Inv n s Hs) Hset) as (-> & ? & _).
  done.
Qed.

(** Run to completion, the items passed to [sendToAPI] are the items [Add]
    was called with, each as often as it was given. *)
Lemma drain_delivers n s w :
  reachable n s →
  let s' := drain (measure s) w s in
  settled s' ∧ delivered s' = enqueued s' ∧ data (buf s') = [] ∧
  delivered s' ≡ₚ called s.
Proof.
  intros Hs s'.
  assert (settled s') as Hset
    by (apply drain_settled; [by eapply reachable_Inv|done]).
  assert (reachable n s') as Hs' by (by apply drain_reachable).
  destruct (settled_rest s' (reachable_Inv n s' Hs') Hset) as (? & ? & _).
  destruct (settled_called n s' Hs' Hset) as [Hc _].
  split_and!; try done. rewrite Hc. unfold s'. by rewrite drain_called.
Qed.

Lemma step_CallAdd s t item :
  threads s !! t = Some Idle →
  step t (CallAdd item) s = Next (jump t (Add60 item) (note_called item s)).
Proof. intros Ht. unfold step. by rewrite Ht. Qed.

(** C3 (exactly once).  In every reachable state the items appended by
    [Add] are, in order, those already passed to [sendToAPI], then the one
    item at most that [sendData] holds between taking it off the queue and
    the call, then the queue: an item is in one place only.  The items
    [Add] was called with are the appended ones and those of the calls
    that have not appended yet, so no item has been passed to [sendToAPI]
    more often than it was given to [Add].  The queue grows only by the
    append of [Add] and the record of deliveries only by a call of
    [sendToAPI]; line 80 takes the head off the queue, line 81 releases
    the mutex, line 83 calls [sendToAPI] on that item, and the return of
    the call, whatever its outcome, prints the line for that item and
    leaves queue and record alone.  A producer at rest can call
    [Add] with any item, and run to completion, after that call or from
    the state as it is, the items passed to [sendToAPI] are exactly the
    items [Add] was called with, each as often as it was given, and the
    queue is empty. *)
Theorem delivered_exactly_once n s :
  reachable n s →
  enqueued s = delivered s ++ (threads s ≫= in_hand) ++ data (buf s)
  ∧ called s ≡ₚ enqueued s ++ (threads s ≫= to_append)
  ∧ delivered s ⊆+ called s
  ∧ (length (threads s ≫= in_hand) ≤ 1)%nat
  ∧ (∀ t i s', step t i s = Next s' →
       (data (buf s') = data (buf s) ∨
        (∃ item, threads s !! t = Some (Add62 item) ∧
                 data (buf s') = data (buf s) ++ [item]) ∨
        (∃ item, threads s !! t = Some (Send80 item) ∧
                 ∃ head, data (buf s) = head :: data (buf s')))
       ∧ (delivered s' = delivered s ∨
          ∃ item, threads s !! t = Some (Send83 item) ∧
                  delivered s' = delivered s ++ [item]))
  ∧ (∀ t item, threads s !! t = Some (Send80 item) →
       ∃ s', step t Run s = Next s' ∧ data (buf s) = item :: data (buf s') ∧
             delivered s' = delivered s ∧
             threads s' !! t = Some (Send81 item))
  ∧ (∀ t item, threads s !! t = Some (Send81 item) →
       ∃ s', step t Run s = Next s' ∧ data (buf s') = data (buf s) ∧
             delivered s' = delivered s ∧
             threads s' !! t = Some (Send83 item))
  ∧ (∀ t item, threads s !! t = Some (Send83 item) →
       ∃ s', step t Run s = Next s' ∧ data (buf s') = data (buf s) ∧
             delivered s' = delivered s ++ [item] ∧
             threads s' !! t = Some (InAPI item))
  ∧ (∀ t item w, threads s !! t = Some (InAPI item) →
       ∃ s', step t (Return w) s = Next s' ∧ data (buf s') = data (buf s) ∧
             delivered s' = delivered s ∧ threads s' !! t = Some Send85 ∧
             stdout s'
             = stdout s ++ [sendToAPI w (url (buf s)) (token (buf s)) item])
  ∧ (∀ t item, threads s !! t = Some Idle →
       ∃ s1, step t (CallAdd item) s = Next s1 ∧
             called s1 = called s ++ [item] ∧
             ∀ w, let s' := drain (measure s1) w s1 in
               settled s' ∧ data (buf s') = [] ∧
               delivered s' ≡ₚ called s ++ [item])
  ∧ (∀ w, let s' := drain (measure s) w s in
       settled s' ∧ delivered s' = enqueued s' ∧ data (buf s') = [] ∧
       delivered s' ≡ₚ called s).
Proof.
  intros Hs. pose proof (reachable_Inv n s Hs) as HI. split_and!.
  - apply (inv_fifo s HI).
  - by eapply reachable_called.
  - by eapply delivered_called.
  - pose proof (in_hand_length (threads s)). rewrite (inv_token s HI) in H.
    destruct (isSending (buf s)); simpl in H; lia.
  - intros t i s'. apply step_queue.
  - intros t item Ht. pose proof (lookup_lt_Some _ _ _ Ht) as Hlt.
    destruct (inv_knows s HI t _ Ht) as [rest Hd].
    unfold step. rewrite Ht, Hd. eexists. split; [done|]. simpl.
    split_and!; try done. by apply list_lookup_insert_eq.
  - intros t item Ht. pose proof (lookup_lt_Some _ _ _ Ht) as Hlt.
    pose proof (tally_lookup_le holds_lock _ _ _ Ht) as Eh.
    rewrite (inv_mutex s HI) in Eh.
    assert (mu (buf s) = true) as Hm
      by (destruct (mu (buf s)); simpl in Eh; [done|lia]).
    unfold step, Unlock. rewrite Ht, Hm. eexists. split; [done|]. simpl.
    split_and!; try done. by apply list_lookup_insert_eq.
  - intros t item Ht. pose proof (lookup_lt_Some _ _ _ Ht) as Hlt.
    unfold step. rewrite Ht. eexists. split; [done|]. simpl.
    split_and!; try done. by apply list_lookup_insert_eq.
  - intros t item w Ht. eexists. split; [by apply step_return|]. simpl.
    split_and!; try done. apply list_lookup_insert_eq. by eapply lookup_lt_Some.
  - intros t item Ht. eexists. split; [by apply step_CallAdd|].
    split; [done|]. intros w.
    set (s1 := jump t (Add60 item) (note_called item s)).
    assert (reachable n s1) as Hs1
      by (eapply reachable_step; [exact Hs|by apply step_CallAdd]).
    destruct (drain_delivers n s1 w Hs1) as (? & _ & ? & ?). done.
  - intros w. by apply (drain_delivers n).
Qed.

(** What is printed has no influence on any move. *)
Lemma step_same_but_stdout s1 s2 t i s1' :
  same_but_stdout s1 s2 → step t i s1 = Next s1' →
  ∃ s2', step t i s2 = Next s2' ∧ same_but_stdout s1' s2'.
Proof.
  intros (Hb & Hth & Hc & He & Hd) H.
  destruct s1 as [b1 th1 c1 e1 d1 o1], s2 as [b2 th2 c2 e2 d2 o2].
  simpl in *. subst b2 th2 c2 e2 d2.
  step_cases H Ht; unfold step; simpl in *; rewrite Ht;
    unfold Lock, Unlock, wg_Add; simpl;
    repeat match goal with H : _ = _ |- _ => rewrite H end;
    eexists; (split; [reflexivity|]); by repeat split.
Qed.

Lemma run_same_but_stdout sched s1 s2 s1' :
  same_but_stdout s1 s2 → run sched s1 = Some s1' →
  ∃ s2', run sched s2 = Some s2' ∧ same_but_stdout s1' s2'.
Proof.
  revert s1 s2. induction sched as [|[t i] sched IH]; intros s1 s2 Hs Hrun;
    simpl in *.
  - injection Hrun as <-. eauto.
  - destruct (step t i s1) as [s1a| | |] eqn:Hstep; try done.
    destruct (step_same_but_stdout s1 s2 t i s1a Hs Hstep) as (s2a & -> & Hsa).
    eauto.
Qed.

(** C4 (failure isolation).  When the call of [sendToAPI] on an item ends
    in failure, the goroutine goes on to line 85 with the buffer, the
    queue and the record of deliveries as they were: the item is neither
    sent again nor put back.  The state differs from the one a successful
    call would have left in the printed line only, and so does everything
    that follows; deliveries go on in the order of the appends, and run to
    completion every appended item has been passed to [sendToAPI]. *)
Theorem failure_isolation n s t item w :
  reachable n s → threads s !! t = Some (InAPI item) →
  failed (sendToAPI w (url (buf s)) (token (buf s)) item) = true →
  ∃ s', step t (Return w) s = Next s'
    ∧ threads s' = <[t:=Send85]> (threads s)
    ∧ buf s' = buf s ∧ enqueued s' = enqueued s ∧ delivered s' = delivered s
    ∧ (∀ w2 s2, step t (Return w2) s = Next s2 →
         same_but_stdout s' s2 ∧
         ∀ sched s'', run sched s' = Some s'' →
           ∃ s2', run sched s2 = Some s2' ∧ same_but_stdout s'' s2')
    ∧ (∀ sched s'', run sched s' = Some s'' →
         ∀ k x, delivered s'' !! k = Some x → enqueued s'' !! k = Some x)
    ∧ (∀ w', let s'' := drain (measure s') w' s' in
         settled s'' ∧ delivered s'' = enqueued s'').
Proof.
  intros Hs Ht _. eexists. split; [by apply step_return|].
  set (s' := jump t Send85 _).
  assert (reachable n s') as Hs'.
  { eapply reachable_step; [exact Hs|]. by apply step_return. }
  split_and!; try done.
  - intros w2 s2 H2. rewrite (step_return s t item w2 Ht) in H2.
    injection H2 as <-.
    assert (same_but_stdout s' (jump t Send85
              (print (sendToAPI w2 (url (buf s)) (token (buf s)) item) s)))
      as Hsame by done.
    split; [done|]. intros sched s'' Hrun.
    by eapply run_same_but_stdout.
  - intros sched s'' Hrun k x Hk.
    pose proof (reachable_Inv n s'' (run_reachable n sched s' s'' Hs' Hrun)) as HI.
    rewrite (inv_fifo s'' HI). by apply prefix_lookup.
  - intros w' s''.
    assert (settled s'') as Hset
      by (apply drain_settled; [by eapply reachable_Inv|done]).
    assert (Inv s'') as HI' by (eapply reachable_Inv, drain_reachable, Hs').
    destruct (settled_rest s'' HI' Hset) as (? & _). done.
Qed.









Lemma at_Done_threads : threads at_Done = [Idle; Send72d; Send73].
Proof. vm_compute. reflexivity. Qed.



Lemma in_api_draining p : (in_api p ≤ draining p)%nat.
Proof. destruct p; simpl; lia. Qed.

(** A move of a [sendData] goroutine takes it further down its text; it
    starts a goroutine only by its move on line 91. *)
Lemma step_rank s t p i s' :
  threads s !! t = Some p → (0 < live p)%nat → step t i s = Next s' →
  ∃ p', (rank p < rank p')%nat ∧
        threads s' = <[t:=p']> (threads s)
                     ++ (if decide (p = Send91) then [Send73] else []).
Proof.
  intros Hp Hlive H. step_cases H Ht; injection Hp as <-;
    simpl in Hlive; try lia; simpl; eexists;
    rewrite ?insert_app_l by (by eapply lookup_lt_Some);
    rewrite ?app_nil_r; (split; [|reflexivity]); simpl; lia.
Qed.

(** C2, as the code has it.  At most one goroutine is in charge of the
    drain: a [sendData] that has neither cleared [isSending] nor started its
    successor, or an [Add] between raising the flag and its [go]; there is
    exactly one while [isSending] is set and none otherwise.  So at most one
    call of [sendToAPI] is in progress.  A [sendData] goroutine starts
    another only by its move on line 91, which comes after its own call of
    [sendToAPI] has returned, and it never moves back: it starts at most
    one.  (The goroutine that has started its successor still has its
    deferred [Unlock] and [wg.Done] to run, so more than one [sendData]
    goroutine can be live.) *)
Theorem one_drain_in_charge n s :
  reachable n s →
  tally draining (threads s) = Nat.b2n (isSending (buf s))
  ∧ (tally draining (threads s) ≤ 1)%nat
  ∧ (tally in_api (threads s) ≤ 1)%nat
  ∧ (∀ t p i s', threads s !! t = Some p → (0 < live p)%nat →
       step t i s = Next s' →
       ∃ p', (rank p < rank p')%nat ∧
             threads s' = <[t:=p']> (threads s)
                          ++ (if decide (p = Send91) then [Send73] else []))
  ∧ (∀ item, rank (InAPI item) < rank Send91)%nat.
Proof.
  intros Hs. pose proof (reachable_Inv n s Hs) as HI.
  pose proof (inv_token s HI) as Htok.
  assert (tally draining (threads s) ≤ 1)%nat as Hle
    by (rewrite Htok; destruct (isSending (buf s)); simpl; lia).
  split_and!; [done|done| | |].
  - pose proof (tally_mono in_api draining (threads s) in_api_draining). lia.
  - intros t p i s'. apply step_rank.
  - intros item. simpl. lia.
Qed.

Lemma one_drain_in_charge_witness :
  reachable 1 handed_over ∧ (tally in_api (threads handed_over) ≤ 1)%nat.
Proof.
  assert (reachable 1 handed_over) as Hr
    by (do 2 apply run_default_reachable; apply reachable_init).
  split; [exact Hr|].
  by destruct (one_drain_in_charge 1 handed_over Hr) as (_ & _ & H & _).
Defined.

(** C2, as stated, fails: in [handed_over] the first [sendData] goroutine
    stands before its deferred [Unlock] while its successor has been
    started. *)
Lemma two_sendData_goroutines :
  ¬ ∀ n s, reachable n s → (tally live (threads s) ≤ 1)%nat.
Proof.
  intros H.
  assert (reachable 1 handed_over) as Hr
    by (do 2 apply run_default_reachable; apply reachable_init).
  specialize (H 1%nat handed_over Hr). vm_compute in H. lia.
Qed.

Lemma in_Add_internal p w : in_Add p = true → input_at w p = Run.
Proof. by destruct p. Qed.


(** A move leaves the other goroutines where they are. *)
Lemma step_other s t' i s' t p :
  step t' i s = Next s' → t ≠ t' → threads s !! t = Some p →
  threads s' !! t = Some p.
Proof.
  intros H Hne Hp. step_cases H Ht; simpl;
    rewrite ?list_lookup_insert_ne by done;
    rewrite ?lookup_app_l by (by eapply lookup_lt_Some); done.
Qed.

(** Only the holder of the mutex changes the queue or the flag. *)
Lemma step_frame s t i s' p :
  step t i s = Next s' → threads s !! t = Some p → holds_lock p = 0%nat →
  data (buf s') = data (buf s) ∧ isSending (buf s') = isSending (buf s).
Proof.
  intros H Hp Hh. step_cases H Ht; injection Hp as <-; simpl in *; done.
Qed.

Lemma started_by_owed t sched : ∀ s s' p,
  Inv s → threads s !! t = Some p → after_test p = true →
  run sched s = Some s' → threads s' !! t = Some Idle →
  (∀ i, (t, i) ∈ sched → external i = false) →
  started_by t sched s = owed p (isSending (buf s)).
Proof.
  induction sched as [|[t' i] sched IH]; intros s s' p HI Hp Hat Hrun Hend Hint.
  - injection Hrun as <-. rewrite Hp in Hend. by injection Hend as ->.
  - simpl in *. destruct (step t' i s) as [s1| | |] eqn:Hstep; try done.
    pose proof (step_inv s t' i s1 HI Hstep) as HI1.
    assert (∀ i0, (t, i0) ∈ sched → external i0 = false) as Hint'
      by (intros i0 Hi0; apply Hint; by right).
    destruct (decide (t' = t)) as [->|Hne].
    + assert (external i = false) as Hi by (apply Hint; left).
      pose proof Hstep as H. step_cases H Ht; try discriminate Hi;
        injection Hp as <-; try discriminate Hat.
      all: erewrite IH; [| exact HI1 | | | exact Hrun | exact Hend | exact Hint'].
      all: try (simpl; apply list_lookup_insert_eq;
                rewrite ?length_app; apply lookup_lt_Some in Ht; simpl; lia).
      all: simpl; rewrite ?length_insert, ?length_app; simpl;
        try match goal with H : isSending _ = _ |- _ => rewrite H end;
        try done; lia.
    + pose proof (step_other s t' i s1 t p Hstep ltac:(done) Hp) as Hp1.
      rewrite (IH s1 s' p HI1 Hp1 Hat Hrun Hend Hint'). simpl.
      destruct p; try done. simpl.
      destruct (threads s !! t') as [p'|] eqn:Ht';
        [|unfold step in Hstep; by rewrite Ht' in Hstep].
      assert (holds_lock p' = 0%nat) as Hh.
      { pose proof (tally_lookup holds_lock _ _ _ Hp) as Eh.
        pose proof (tally_delete_other holds_lock _ t _ _ Ht' Hne).
        rewrite (inv_mutex s HI) in Eh. destruct (mu (buf s)); simpl in *; lia. }
      by destruct (step_frame s t' i s1 p' Hstep Ht' Hh) as [_ ->].
Qed.
(** C8 (idle re-activation).  Take a call of [Add] at its test of
    [isSending] on line 63, in any reachable state, and let the goroutines
    move in any order until the call has returned.  The moves of the call
    start exactly one [sendData] goroutine when it found the flag clear, and
    none when it found it set.  At all times exactly one goroutine is in
    charge of the drain while the flag is set, and none otherwise. *)
Theorem Add_starts_one_chain n s t :
  reachable n s → threads s !! t = Some Add63 →
  (∀ sched s', run sched s = Some s' → threads s' !! t = Some Idle →
     (∀ i, (t, i) ∈ sched → external i = false) →
     started_by t sched s = if isSending (buf s) then 0%nat else 1%nat)
  ∧ (∀ sched s', run sched s = Some s' →
       tally draining (threads s') = Nat.b2n (isSending (buf s'))).
Proof.
  intros Hs Ht. pose proof (reachable_Inv n s Hs) as HI. split.
  - intros sched s' Hrun Hend Hint.
    by rewrite (started_by_owed t sched s s' Add63 HI Ht eq_refl Hrun Hend Hint).
  - intros sched s' Hrun. apply inv_token.
    by eapply reachable_Inv, run_reachable.
Qed.

Lemma Add_starts_one_chain_witness :
  reachable 1 at_test ∧ threads at_test !! 0%nat = Some Add63 ∧
  started_by 0 (moves 0 5) at_test = 1%nat.
Proof.
  assert (reachable 1 at_test) as Hr
    by apply run_default_reachable, reachable_init.
  assert (threads at_test !! 0%nat = Some Add63) as Ht
    by (vm_compute; reflexivity).
  split_and!; [exact Hr|exact Ht|].
  destruct (Add_starts_one_chain 1 at_test 0 Hr Ht) as [Hone _].
  assert (threads <$> run (moves 0 5) at_test = Some [Idle; Send73]) as Hth
    by (vm_compute; reflexivity).
  destruct (run (moves 0 5) at_test) as [s'|] eqn:Hrun; [|discriminate Hth].
  injection Hth as Hth.
  rewrite (Hone (moves 0 5) s' Hrun).
  - apply (bool_decide_eq_true_1 _). vm_compute. reflexivity.
  - by rewrite Hth.
  - intros i Hi. apply elem_of_replicate in Hi as [Hi _]. by injection Hi as ->.
Defined.
(** ** [sendToAPI] *)

(** C7, as the code has it.  [sendToAPI] reports a failure exactly when
    the request cannot be built, the transport call fails, reading the
    response body fails, the body does not decode, or the status code is
    not 200.  The decoded value is not looked at: with any other decoder
    that accepts and rejects the same bodies, and in particular with any
    other value in the [STATUS] field, the report is the same. *)
Theorem failure_classification w url token data :
  (failed (sendToAPI w url token data) = true ↔
     construction_fails w url token data ∨ transport_fails w url token data ∨
     read_fails w url token data ∨ decode_fails w url token data ∨
     status_not_200 w url token data)
  ∧ (∀ unmarshal,
       (∀ body, is_err (unmarshal body) ↔ is_err (json_Unmarshal w body)) →
       failed (sendToAPI (with_decoder w unmarshal) url token data)
       = failed (sendToAPI w url token data))
  ∧ (∀ status,
       sendToAPI
         (with_decoder w (λ body, map_decoded (with_Status status)
                                    (json_Unmarshal w body)))
         url token data
       = sendToAPI w url token data).
Proof.
  split_and!.
  - sendToAPI_cases w url token data; simpl.
    + split; [intros _; by left|done].
    + split; [intros _|done]. right; left. eexists. split; [done|].
      by rewrite Hdo.
    + split; [intros _|done]. right; right; left. eexists. split; [done|].
      by rewrite Hbody.
    + split; [intros _|done]. do 3 right; left. eexists. split; [done|].
      by rewrite Hjson.
    + split; [intros _|done]. do 4 right. by eexists.
    + split; [done|].
      intros [H|[(x & Hx & H)|[(x & Hx & H)|[(x & Hx & H)|(x & Hx & H)]]]];
        try discriminate H; injection Hx as <-.
      * by rewrite Hdo in H.
      * by rewrite Hbody in H.
      * by rewrite Hjson in H.
      * done.
  - intros unmarshal Hsame. unfold sendToAPI. simpl.
    change (requestBody (with_decoder w unmarshal) data)
      with (requestBody w data).
    change (http_NewRequest (with_decoder w unmarshal))
      with (http_NewRequest w).
    repeat case_match; simplify_eq/=; try done;
      match goal with
      | H1 : unmarshal ?b = _, H2 : json_Unmarshal w ?b = _ |- _ =>
          pose proof (Hsame b) as Hb; rewrite H1, H2 in Hb; simpl in Hb;
          tauto
      end.
  - intros status. unfold sendToAPI. simpl.
    change (requestBody (with_decoder w _) data) with (requestBody w data).
    change (http_NewRequest (with_decoder w ?u)) with (http_NewRequest w).
    repeat case_match; simplify_eq/=; try done;
      match goal with
      | H1 : map_decoded _ ?x = _, H2 : ?x = _ |- _ =>
          rewrite H2 in H1; simplify_eq/=
      end.
Qed.

(** C7, as stated, fails: when the body cannot be read, the delivery is
    reported as failed and none of the four conditions holds. *)
Lemma read_failure_not_specified :
  ¬ ∀ w url token data,
      failed (sendToAPI w url token data) = true ↔
      failure_as_specified w url token data.
Proof.
  intros H.
  destruct (H broken_body main_url main_token (main_item 0)) as [H1 _].
  destruct (H1 eq_refl) as [Hc|[Ht|[Hs|Hd]]].
  - discriminate Hc.
  - destruct Ht as (req & _ & Herr). exact Herr.
  - destruct Hs as (resp & Hresp & Hcode). injection Hresp as <-. by apply Hcode.
  - destruct Hd as (body & Hbody & _). discriminate Hbody.
Qed.

(** C9 (decode before status).  When a response has come with a status
    other than 200 and its body, once read, does not decode, [sendToAPI]
    reports the decode error and not the status.  It reports the status
    only for a response whose body has been read and has decoded. *)
Theorem decode_before_status w url token data :
  (∀ resp body err,
     response_got w url token data = Some resp → Body resp = inr body →
     StatusCode resp ≠ StatusOK → json_Unmarshal w body = inl err →
     sendToAPI w url token data = ErrUnmarshal err)
  ∧ (∀ status,
       sendToAPI w url token data = ErrResponse status →
       ∃ resp body r,
         response_got w url token data = Some resp ∧ Body resp = inr body ∧
         json_Unmarshal w body = inr r ∧ StatusCode resp ≠ StatusOK ∧
         status = Status resp).
Proof.
  split.
  - intros resp0 body0 err Hresp Hb Hne Herr.
    sendToAPI_cases w url token data; simplify_eq/=; congruence.
  - intros status Hrep.
    sendToAPI_cases w url token data; simplify_eq/=. eauto 10.
Qed.

Lemma decode_before_status_witness :
  sendToAPI (answering 500 "500 Internal Server Error" "<html>")
    main_url main_token (main_item 0)
  = ErrUnmarshal "invalid character".
Proof.
  destruct (decode_before_status
              (answering 500 "500 Internal Server Error" "<html>")
              main_url main_token (main_item 0)) as [H _].
  eapply H; [reflexivity|reflexivity|done|reflexivity].
Defined.
(** ** The request body *)

Lemma string_app_nil_r s : s +:+ "" = s.
Proof. induction s as [|a s IH]; simpl; [done|]. unfold String.app in *. simpl. by rewrite IH. Qed.

Lemma string_app_assoc s1 s2 s3 : (s1 +:+ s2) +:+ s3 = s1 +:+ s2 +:+ s3.
Proof.
  induction s1 as [|a s1 IH]; [done|].
  change ((String a s1 +:+ s2) +:+ s3) with (String a ((s1 +:+ s2) +:+ s3)).
  change (String a s1 +:+ s2 +:+ s3) with (String a (s1 +:+ s2 +:+ s3)).
  by rewrite IH.
Qed.

Lemma string_length_app s1 s2 :
  String.length (s1 +:+ s2) = (String.length s1 + String.length s2)%nat.
Proof.
  induction s1 as [|a s1 IH]; [done|].
  change (String a s1 +:+ s2) with (String a (s1 +:+ s2)). simpl. by rewrite IH.
Qed.

Lemma render_nonempty esc kv : String.length (render esc kv) ≠ 0%nat.
Proof. unfold render. rewrite !string_length_app. simpl. lia. Qed.

Lemma concat_render esc kv ps :
  String.concat "&" (render esc <$> kv :: ps)
  = render esc kv +:+ and_more esc ps.
Proof.
  revert kv. induction ps as [|kv' ps IH]; intros kv.
  - simpl. by rewrite string_app_nil_r.
  - change (String.concat "&" (render esc <$> kv :: kv' :: ps))
      with (render esc kv +:+ "&" +:+ String.concat "&" (render esc <$> kv' :: ps)).
    by rewrite IH.
Qed.

Lemma write_pairs w ps : ∀ buf,
  String.length buf ≠ 0%nat →
  foldl (λ buf kv, write_pair w (QueryEscape w kv.1) buf kv.2) buf ps
  = buf +:+ and_more (QueryEscape w) ps.
Proof.
  induction ps as [|kv ps IH]; intros buf Hbuf; simpl.
  - by rewrite string_app_nil_r.
  - unfold write_pair at 2. rewrite decide_False by done.
    rewrite IH by (rewrite !string_length_app; lia).
    unfold render. by rewrite !string_app_assoc.
Qed.

Lemma write_all w ps :
  foldl (λ buf kv, write_pair w (QueryEscape w kv.1) buf kv.2) "" ps
  = String.concat "&" (render (QueryEscape w) <$> ps).
Proof.
  destruct ps as [|kv ps]; [done|].
  rewrite concat_render. simpl. unfold write_pair at 2. simpl.
  apply (write_pairs w ps (render (QueryEscape w) kv)), render_nonempty.
Qed.

(** Writing the values of each key is writing each pair, when every key
    has the one value of its pair. *)
Lemma write_by_key w (data : WorkItem) ps :
  (∀ kv, kv ∈ ps → data !! kv.1 = Some kv.2) → ∀ buf,
  foldl (λ buf k,
           foldl (write_pair w (QueryEscape w k)) buf
                 (default [] (((λ v, [v]) <$> data) !! k)))
        buf ps.*1
  = foldl (λ buf kv, write_pair w (QueryEscape w kv.1) buf kv.2) buf ps.
Proof.
  induction ps as [|kv ps IH]; intros Hin buf; [done|]. simpl.
  rewrite lookup_fmap, (Hin kv) by left. simpl.
  apply IH. intros kv' Hkv'. apply Hin. by right.
Qed.

Lemma foldl_Set (l : list (string * string)) (acc : Values) :
  foldl (λ fd kv, Values_Set fd kv.1 kv.2) acc l
  = foldr (λ kv fd, <[kv.1 := [kv.2]]> fd) acc (reverse l).
Proof.
  revert acc. induction l as [|kv l IH]; intros acc; [done|].
  simpl. rewrite reverse_cons, foldr_snoc. apply IH.
Qed.

Lemma foldr_insert_list_to_map (l : list (string * string)) :
  foldr (λ kv fd, <[kv.1 := [kv.2]]> fd) (∅ : Values) l
  = (λ v, [v]) <$> (list_to_map l : WorkItem).
Proof.
  induction l as [|[k v] l IH]; simpl.
  - by rewrite fmap_empty.
  - by rewrite IH, fmap_insert.
Qed.

(** The form holds every field of the item with its one value, in whatever
    order the [range] went. *)
Lemma formData_fmap w (data : WorkItem) :
  range_ok w → formData w data = (λ v, [v]) <$> data.
Proof.
  intros [Hr _]. unfold formData.
  rewrite foldl_Set, foldr_insert_list_to_map. f_equal.
  rewrite <-(list_to_map_to_list data) at 2.
  apply list_to_map_proper.
  - rewrite reverse_Permutation, (Hr data).
    apply NoDup_fst_map_to_list.
  - by rewrite reverse_Permutation, (Hr data).
Qed.

Lemma sorted_pairs_perm (data : WorkItem) :
  sorted_pairs data ≡ₚ map_to_list data.
Proof. apply merge_sort_Permutation. Qed.

Lemma sorted_pairs_sorted (data : WorkItem) :
  Sorted String.le (sorted_pairs data).*1.
Proof.
  apply (Sorted_fmap fst (λ a b, String.le a.1 b.1)); [done|].
  apply Sorted_merge_sort. intros a b. apply (total String.le).
Qed.

Lemma sorted_pairs_lookup (data : WorkItem) kv :
  kv ∈ sorted_pairs data → data !! kv.1 = Some kv.2.
Proof.
  rewrite sorted_pairs_perm. destruct kv as [k v]. apply elem_of_map_to_list.
Qed.

(** The keys [Encode] sorts are the keys of the item by ascending order. *)
Lemma sorted_keys w (data : WorkItem) :
  range_ok w →
  merge_sort String.le (range_keys w ((λ v, [v]) <$> data))
  = (sorted_pairs data).*1.
Proof.
  intros [_ Hk]. apply (Sorted_unique String.le).
  - apply Sorted_merge_sort, _.
  - apply sorted_pairs_sorted.
  - rewrite merge_sort_Permutation, Hk, map_to_list_fmap, sorted_pairs_perm.
    rewrite <-list_fmap_compose.
    assert ((fst ∘ prod_map id (λ v : string, [v])) <$> map_to_list data
            = (map_to_list data).*1) as -> by (by apply list_fmap_ext; intros ? []).
    done.
Qed.

(** C10 (request body).  Whatever order the runtime ranges over the item
    and over the form in, the body [sendToAPI] builds is the pairs
    [key=value] of the item, escaped, by ascending key (the keys are all
    different), joined by ['&'].  It is the same for two runtimes that
    escape alike, and the same for an item whose fields were put in in
    another order. *)
Theorem request_body_canonical w (data : WorkItem) :
  range_ok w →
  requestBody w data = canonical_body (QueryEscape w) data
  ∧ sorted_pairs data ≡ₚ map_to_list data
  ∧ Sorted String.le (sorted_pairs data).*1
  ∧ NoDup (sorted_pairs data).*1
  ∧ (∀ w', range_ok w' → QueryEscape w' = QueryEscape w →
       requestBody w' data = requestBody w data)
  ∧ (∀ l1 l2 : list (string * string), NoDup l1.*1 → l1 ≡ₚ l2 →
       data = list_to_map l1 →
       requestBody w (list_to_map l2) = requestBody w data).
Proof.
  intros Hw.
  assert (∀ w0, range_ok w0 →
            requestBody w0 data = canonical_body (QueryEscape w0) data) as Hbody.
  { intros w0 Hw0. unfold requestBody, Values_Encode, canonical_body.
    rewrite (formData_fmap w0 data Hw0), map_size_fmap.
    destruct (decide (size data = 0%nat)) as [Hz|Hnz].
    - apply map_size_empty_inv in Hz as ->. done.
    - rewrite (sorted_keys w0 data Hw0).
      rewrite (write_by_key w0 data (sorted_pairs data)
                 (sorted_pairs_lookup data)).
      apply write_all. }
  split_and!.
  - by apply Hbody.
  - apply sorted_pairs_perm.
  - apply sorted_pairs_sorted.
  - rewrite sorted_pairs_perm. apply NoDup_fst_map_to_list.
  - intros w' Hw' Hesc. by rewrite (Hbody w' Hw'), (Hbody w Hw), Hesc.
  - intros l1 l2 Hnd Hperm ->. f_equal. symmetry. by apply list_to_map_proper.
Qed.

Lemma request_body_canonical_witness :
  range_ok (answering 200 "200 OK" "{}") ∧
  requestBody (answering 200 "200 OK" "{}")
    (list_to_map [("value", "7"); ("is_plan", "0"); ("period_key", "month")])
  = "is_plan=0&period_key=month&value=7"%string.
Proof.
  assert (range_ok (answering 200 "200 OK" "{}")) as Hw by (by split).
  split; [exact Hw|].
  destruct (request_body_canonical (answering 200 "200 OK" "{}")
              (list_to_map [("value", "7"); ("is_plan", "0");
                            ("period_key", "month")]) Hw) as (-> & _).
  vm_compute. reflexivity.
Defined.
(** ** The theorems at the example states *)

Lemma delivered_exactly_once_witness :
  reachable 1 in_flight ∧
  called in_flight = [main_item 0; main_item 1] ∧
  delivered in_flight = [main_item 0] ∧
  data (buf in_flight) = [main_item 1] ∧
  delivered (drain (measure in_flight) unreachable in_flight)
    ≡ₚ [main_item 0; main_item 1].
Proof.
  assert (reachable 1 in_flight) as Hr
    by apply run_default_reachable, reachable_init.
  assert (called in_flight = [main_item 0; main_item 1]) as Hc
    by (apply (bool_decide_eq_true_1 _); vm_compute; reflexivity).
  split; [exact Hr|]. split; [exact Hc|].
  split; [apply (bool_decide_eq_true_1 _); vm_compute; reflexivity|].
  split; [apply (bool_decide_eq_true_1 _); vm_compute; reflexivity|].
  destruct (delivered_exactly_once 1 in_flight Hr)
    as (_ & _ & _ & _ & _ & _ & _ & _ & _ & _ & H).
  destruct (H unreachable) as (_ & _ & _ & Hd).
  exact (eq_rect _
           (λ l, delivered (drain (measure in_flight) unreachable in_flight)
                 ≡ₚ l) Hd _ Hc).
Defined.

Lemma failure_isolation_witness :
  reachable 1 in_flight ∧
  threads in_flight !! 1%nat = Some (InAPI (main_item 0)) ∧
  failed (sendToAPI unreachable (url (buf in_flight)) (token (buf in_flight))
            (main_item 0)) = true ∧
  ∃ s', step 1 (Return unreachable) in_flight = Next s' ∧
        threads s' = <[1%nat:=Send85]> (threads in_flight) ∧
        buf s' = buf in_flight.
Proof.
  assert (reachable 1 in_flight) as Hr
    by apply run_default_reachable, reachable_init.
  assert (threads in_flight !! 1%nat = Some (InAPI (main_item 0))) as Ht
    by (apply (bool_decide_eq_true_1 _); vm_compute; reflexivity).
  assert (failed (sendToAPI unreachable (url (buf in_flight))
                    (token (buf in_flight)) (main_item 0)) = true) as Hf
    by (vm_compute; reflexivity).
  split_and!; [exact Hr|exact Ht|exact Hf|].
  destruct (failure_isolation 1 in_flight 1 (main_item 0) unreachable Hr Ht Hf)
    as (s' & Hstep & Hth & Hbuf & _).
  by exists s'.
Defined.



Lemma failure_classification_witness :
  read_fails broken_body main_url main_token (main_item 0) ∧
  failed (sendToAPI broken_body main_url main_token (main_item 0)) = true.
Proof.
  assert (read_fails broken_body main_url main_token (main_item 0)) as Hr.
  { eexists. split; [reflexivity|exact I]. }
  split; [exact Hr|].
  destruct (failure_classification broken_body main_url main_token
              (main_item 0)) as ([_ H] & _).
  apply H. right; right; left. exact Hr.
Defined.

(** ** More invariants of the dispatcher *)

Lemma Inv2_init apiURL tok n : Inv2 n (init apiURL tok n).
Proof.
  split; simpl; rewrite ?tally_replicate, ?length_replicate; simpl; try lia.
  - intros t p Ht. apply lookup_replicate in Ht as [-> _]. done.
  - intros t p Ht. apply lookup_replicate in Ht as [-> _]. done.
Qed.

Lemma expects_item_charge p :
  expects_item p = true → holds_lock p = 1%nat ∨ draining p = 1%nat.
Proof. destruct p; simpl; try done; eauto. Qed.

Lemma step_inv2 n s t i s' :
  Inv s → Inv2 n s → step t i s = Next s' → Inv2 n s'.
Proof.
  intros [Hmu Htok Hwg Hkn Hfifo Hflag] [Hitem Hdead Hgo Hout] H.
  step_cases H Ht.
  all: pose proof (Hkn _ _ Ht) as Hk.
  all: pose proof (Hdead _ _ Ht) as [Hd1 Hd2]; try done.
  all: pose proof (tally_lookup holds_lock _ _ _ Ht) as Eh.
  all: pose proof (tally_lookup draining _ _ _ Ht) as Ed.
  all: pose proof (tally_lookup before_call _ _ _ Ht) as Eb.
  all: pose proof (tally_lookup in_api _ _ _ Ht) as Ea.
  all: pose proof (lookup_lt_Some _ _ _ Ht) as Hlt.
  all: try (assert (data (buf s) ≠ []) as Hne by (by eapply Hitem));
    try (assert (length (data (buf s)) ≠ 0%nat) as Hlen
           by (by destruct (data (buf s))));
    try done.
  all: destruct s as [[qd qm qu qk qf qn] ths cl en de out]; simpl in *.
  all: split; simpl.
  all: rewrite ?(tally_insert_snoc _ _ _ _ _ _ Ht), ?(tally_insert _ _ _ _ _ Ht),
         ?length_insert, ?length_app; simpl.
  all: try lia.
  (* the queue is not empty where an item is expected *)
  all: try (intros j r Hj Hr;
    let other Hne' Hj' :=
      (first [ by eapply Hitem
             | by destruct qd
             | exfalso;
               pose proof (tally_delete_other holds_lock _ t _ _ Hj' Hne');
               pose proof (tally_delete_other draining _ t _ _ Hj' Hne');
               destruct (expects_item_charge _ Hr) as [Hc|Hc];
               rewrite Hc in *; destruct qm, qf; simpl in *; lia ]) in
    first [ apply lookup_insert_snoc_Some in Hj as [[? ->]|[[Hne' Hj]| ->]];
            [try done|other Hne' Hj|try done]
          | apply lookup_insert_pc_Some in Hj as [[? ->]|[Hne' Hj]];
            [try done|other Hne' Hj] ];
    first [ done | by destruct qd | by eapply Hitem ]).
  (* nobody stands on lines 75 and 76 *)
  all: try (intros j r Hj;
    first [ apply lookup_insert_snoc_Some in Hj as [[? ->]|[[Hne' Hj]| ->]];
            [done|by eapply Hdead|done]
          | apply lookup_insert_pc_Some in Hj as [[? ->]|[Hne' Hj]];
            [done|by eapply Hdead] ]).
Qed.

Lemma reachable_Inv2 n s : reachable n s → Inv2 n s.
Proof.
  induction 1 as [apiURL tok|s t i s' Hs IH Hstep].
  - apply Inv2_init.
  - eapply step_inv2; [|done|done]. by eapply reachable_Inv.
Qed.

(** X8.  The first test of [sendData] never finds the queue empty: in no
    reachable state does a goroutine stand on line 75 or 76, and whenever
    one stands on line 73 or 74 the queue holds an item. *)
Theorem sendData_early_exit_dead n s t p :
  reachable n s → threads s !! t = Some p →
  p ≠ Send75 ∧ p ≠ Send76 ∧
  ((p = Send73 ∨ p = Send74) → data (buf s) ≠ []).
Proof.
  intros Hs Ht. pose proof (reachable_Inv2 n s Hs) as [Hitem Hdead _ _].
  destruct (Hdead t p Ht) as [? ?]. split_and!; try done.
  intros [-> | ->]; by eapply Hitem.
Qed.

Lemma sendData_early_exit_dead_witness :
  reachable 1 after_main ∧ threads after_main !! 1%nat = Some Send73 ∧
  data (buf after_main) ≠ [].
Proof.
  assert (reachable 1 after_main) as Hr
    by apply run_default_reachable, reachable_init.
  assert (threads after_main !! 1%nat = Some Send73) as Ht
    by (vm_compute; reflexivity).
  split_and!; [exact Hr|exact Ht|].
  destruct (sendData_early_exit_dead 1 after_main 1 Send73 Hr Ht) as (_ & _ & H).
  apply H. by left.
Defined.

Lemma tally_mono_on f g l :
  (∀ t p, l !! t = Some p → (f p ≤ g p)%nat) → (tally f l ≤ tally g l)%nat.
Proof.
  induction l as [|p l IH]; intros Hfg; [done|]. rewrite !tally_cons.
  pose proof (Hfg 0%nat p eq_refl).
  assert (tally f l ≤ tally g l)%nat
    by (apply IH; intros t q Hq; by apply (Hfg (S t))).
  lia.
Qed.

(** X11.  One goroutine per item: the [sendData] goroutines started so far
    are as many as the calls of [sendToAPI] made so far, plus the one at
    most that has not made its call yet; and every call that has returned
    has printed one line. *)
Theorem one_goroutine_per_item n s :
  reachable n s →
  length (threads s)
  = (n + length (delivered s) + tally before_call (threads s))%nat
  ∧ (tally before_call (threads s) ≤ 1)%nat
  ∧ (length (stdout s) + tally in_api (threads s))%nat = length (delivered s).
Proof.
  intros Hs. pose proof (reachable_Inv2 n s Hs) as [_ Hdead Hgo Hout].
  pose proof (reachable_Inv n s Hs) as HI.
  split_and!; [done| |done].
  assert (tally before_call (threads s) ≤ tally draining (threads s))%nat as Hle.
  { apply tally_mono_on. intros t p Ht. destruct (Hdead t p Ht).
    destruct p; simpl; try lia; done. }
  rewrite (inv_token s HI) in Hle. destruct (isSending (buf s)); simpl in Hle; lia.
Qed.

Lemma one_goroutine_per_item_witness :
  reachable 1 handed_over ∧
  length (threads handed_over)
  = (1 + length (delivered handed_over)
     + tally before_call (threads handed_over))%nat.
Proof.
  assert (reachable 1 handed_over) as Hr
    by (do 2 apply run_default_reachable; apply reachable_init).
  split; [exact Hr|].
  by destruct (one_goroutine_per_item 1 handed_over Hr) as (H & _).
Defined.
(** ** Waiting for the drain *)

(** With the counter at zero and no producer inside [Add], every goroutine
    is a producer at rest or a [sendData] that has ended. *)
Lemma quiet_threads s :
  Inv s → wg (buf s) = 0 →
  (∀ t p, threads s !! t = Some p → in_Add p = false) →
  ∀ t p, threads s !! t = Some p → p = Idle ∨ p = Wait209 ∨ p = Exited.
Proof.
  intros HI Hz Hno t p Ht. specialize (Hno t p Ht).
  pose proof (tally_lookup_le tracked _ _ _ Ht) as Hle.
  pose proof (inv_wg s HI) as Hwg. rewrite Hz in Hwg.
  assert (tally tracked (threads s) = 0%nat) as Hzero by lia.
  rewrite Hzero in Hle.
  destruct p; try discriminate Hno; eauto; unfold tracked in Hle; simpl in Hle; lia.
Qed.

Lemma quiet_tally f s :
  (∀ t p, threads s !! t = Some p → p = Idle ∨ p = Wait209 ∨ p = Exited) →
  f Idle = 0%nat → f Wait209 = 0%nat → f Exited = 0%nat →
  tally f (threads s) = 0%nat.
Proof.
  generalize (threads s). intros l Hl HI HW HE.
  induction l as [|p l IH]; [done|]. rewrite tally_cons, IH.
  - destruct (Hl 0%nat p eq_refl) as [->|[->| ->]]; lia.
  - intros t q Ht. by apply (Hl (S t) q).
Qed.

Lemma quiet_rest s :
  Inv s → wg (buf s) = 0 →
  (∀ t p, threads s !! t = Some p → in_Add p = false) →
  data (buf s) = [] ∧ isSending (buf s) = false ∧ mu (buf s) = false ∧
  delivered s = enqueued s ∧ tally in_api (threads s) = 0%nat.
Proof.
  intros HI Hz Hno. pose proof (quiet_threads s HI Hz Hno) as Hq.
  destruct HI as [Hmu Htok Hwg Hkn Hfifo Hflag].
  rewrite (quiet_tally holds_lock s Hq) in Hmu by done.
  rewrite (quiet_tally draining s Hq) in Htok by done.
  pose proof (quiet_tally unflagged s Hq eq_refl eq_refl eq_refl) as Hu.
  pose proof (quiet_tally draining s Hq eq_refl eq_refl eq_refl) as Hd.
  rewrite (bind_weightless in_hand draining _ in_hand_draining Hd) in Hfifo.
  assert (isSending (buf s) = false) as Hf by (by destruct (isSending (buf s))).
  assert (data (buf s) = []) as Hdata.
  { destruct (data (buf s)) as [|x l] eqn:E; [done|].
    destruct Hflag as [?|?]; [done|congruence|lia]. }
  rewrite Hdata, app_nil_r in Hfifo. simpl in Hfifo.
  split_and!; try done; [by destruct (mu (buf s))|].
  by apply quiet_tally.
Qed.

Lemma Wait_returns s t s' :
  threads s !! t = Some Wait209 → step t Run s = Next s' →
  wg (buf s) = 0 ∧ s' = jump t Idle s.
Proof.
  intros Ht H. unfold step in H. rewrite Ht in H.
  destruct (decide (wg (buf s) = 0)); [|done]. by injection H as <-.
Qed.

(** X1.  When [wg.Wait()] returns while no producer is inside [Add], the
    drain is over: the queue is empty, [isSending] is clear, the mutex is
    free, every item appended has been passed to [sendToAPI], no call of
    [sendToAPI] is in progress and one line has been printed for each. *)
Theorem Wait_returns_drained n s t s' :
  reachable n s → threads s !! t = Some Wait209 →
  (∀ t' p, threads s !! t' = Some p → in_Add p = false) →
  step t Run s = Next s' →
  data (buf s') = [] ∧ isSending (buf s') = false ∧ mu (buf s') = false ∧
  delivered s' = enqueued s' ∧ tally in_api (threads s') = 0%nat ∧
  length (stdout s') = length (enqueued s') ∧
  ∀ t' p, threads s' !! t' = Some p → p = Idle ∨ p = Wait209 ∨ p = Exited.
Proof.
  intros Hs Ht Hno Hstep.
  destruct (Wait_returns s t s' Ht Hstep) as [Hz ->].
  pose proof (reachable_Inv n s Hs) as HI.
  destruct (quiet_rest s HI Hz Hno) as (Hd & Hf & Hm & Hde & Ha).
  pose proof (inv2_stdout n s (reachable_Inv2 n s Hs)) as Hout.
  simpl. rewrite (tally_insert _ _ _ _ _ Ht).
  pose proof (tally_lookup in_api _ _ _ Ht) as Ea. simpl in *.
  split_and!; try done; try lia.
  - rewrite <-Hde. lia.
  - intros t' p Hp.
    apply lookup_insert_pc_Some in Hp as [[_ ->]|[_ Hp]]; [eauto|].
    by eapply quiet_threads.
Qed.

(** X2.  With a single producer, as in [main], the return of [wg.Wait()]
    means that every item [Add] was called with has been passed to
    [sendToAPI], in the order of the calls, and that every one of these
    calls has returned and printed its line. *)
Theorem single_producer_Wait s t s' :
  reachable 1 s → threads s !! t = Some Wait209 → step t Run s = Next s' →
  delivered s' = called s' ∧ data (buf s') = [] ∧
  tally in_api (threads s') = 0%nat ∧
  length (stdout s') = length (called s').
Proof.
  intros Hs Ht Hstep.
  destruct (Wait_returns s t s' Ht Hstep) as [Hz ->].
  pose proof (reachable_Inv 1 s Hs) as HI.
  pose proof (reachable_Inv1 s Hs) as [Hp Hc].
  pose proof (tally_lookup producer _ _ _ Ht) as Ep. simpl in Ep.
  assert (∀ t' p, threads s !! t' = Some p → in_Add p = false) as Hno.
  { intros t' p Hp'. destruct (decide (t' = t)) as [->|Hne].
    - rewrite Ht in Hp'. by injection Hp' as <-.
    - pose proof (tally_delete_other producer _ t _ _ Hp' Hne).
      destruct p; simpl in *; try done; lia. }
  destruct (quiet_rest s HI Hz Hno) as (Hd & Hf & Hm & Hde & Ha).
  pose proof (inv2_stdout 1 s (reachable_Inv2 1 s Hs)) as Hout.
  assert (threads s ≫= to_append = []) as Hta.
  { destruct (bind_sole to_append producer (threads s) t _ to_append_producer Ht)
      as [E _]; [lia|done]. }
  rewrite Hta, app_nil_r in Hc.
  simpl. rewrite (tally_insert _ _ _ _ _ Ht).
  pose proof (tally_lookup in_api _ _ _ Ht) as Ea. simpl in *.
  split_and!; try done; try lia; try congruence.
  rewrite Hc, <-Hde. lia.
Qed.
Lemma Wait_fires s t :
  threads s !! t = Some Wait209 → wg (buf s) = 0 →
  step t Run s = Next (jump t Idle s).
Proof. intros Ht Hz. unfold step. rewrite Ht. by rewrite decide_True. Qed.

Lemma drained_waiting_reachable : reachable 1 drained_waiting.
Proof. do 3 apply run_default_reachable. apply reachable_init. Qed.

Lemma drained_waiting_threads :
  threads drained_waiting = [Wait209; Exited; Exited].
Proof. vm_compute. reflexivity. Qed.

Lemma Wait_returns_drained_witness :
  reachable 1 drained_waiting ∧
  threads drained_waiting !! 0%nat = Some Wait209 ∧
  delivered (jump 0 Idle drained_waiting) = enqueued (jump 0 Idle drained_waiting).
Proof.
  pose proof drained_waiting_reachable as Hr.
  assert (threads drained_waiting !! 0%nat = Some Wait209) as Ht
    by (rewrite drained_waiting_threads; reflexivity).
  assert (∀ t' p, threads drained_waiting !! t' = Some p → in_Add p = false)
    as Hno.
  { rewrite drained_waiting_threads.
    intros [|[|[|t']]] p Hp; try discriminate Hp; injection Hp as <-;
      reflexivity. }
  assert (wg (buf drained_waiting) = 0) as Hz by (vm_compute; reflexivity).
  pose proof (Wait_fires drained_waiting 0 Ht Hz) as Hstep.
  split; [exact Hr|split; [exact Ht|]].
  destruct (Wait_returns_drained 1 drained_waiting 0 _ Hr Ht Hno Hstep)
    as (_ & _ & _ & H & _).
  exact H.
Defined.

Lemma single_producer_Wait_witness :
  reachable 1 drained_waiting ∧
  threads drained_waiting !! 0%nat = Some Wait209 ∧
  delivered (jump 0 Idle drained_waiting) = called (jump 0 Idle drained_waiting).
Proof.
  pose proof drained_waiting_reachable as Hr.
  assert (threads drained_waiting !! 0%nat = Some Wait209) as Ht
    by (rewrite drained_waiting_threads; reflexivity).
  assert (wg (buf drained_waiting) = 0) as Hz by (vm_compute; reflexivity).
  pose proof (Wait_fires drained_waiting 0 Ht Hz) as Hstep.
  split; [exact Hr|split; [exact Ht|]].
  destruct (single_producer_Wait drained_waiting 0 _ Hr Ht Hstep) as (H & _).
  exact H.
Defined.

(** X3.  With a second producer [wg.Wait()] promises less: it can return
    while an item appended by a call of [Add] that is still running sits in
    the queue, not delivered. *)
Theorem Wait_can_return_early :
  ∃ s t s', reachable 2 s ∧ threads s !! t = Some Wait209 ∧
            step t Run s = Next s' ∧
            data (buf s') ≠ [] ∧ delivered s' = [].
Proof.
  exists racing, 0%nat, (jump 0 Idle racing).
  assert (threads racing = [Wait209; Add63]) as Hth by (vm_compute; reflexivity).
  assert (threads racing !! 0%nat = Some Wait209) as Ht by (by rewrite Hth).
  split_and!.
  - apply run_default_reachable, reachable_init.
  - exact Ht.
  - apply Wait_fires; [exact Ht|vm_compute; reflexivity].
  - assert (length (data (buf (jump 0 Idle racing))) = 1%nat) as Hlen
      by (vm_compute; reflexivity).
    intros Hnil. by rewrite Hnil in Hlen.
  - vm_compute. reflexivity.
Qed.

(** X4.  No statement of [Add] or [sendData] makes the runtime abort: in
    no reachable state is the mutex unlocked while free, does the
    wait-group counter go below zero, or is the head of an empty queue
    taken.  For the three calls on the wait group that the runtime checks
    against a concurrent [Wait] this is said where the wait group's rule
    of use is kept: always with a single producer, and with more of them
    while none is inside [wg.Wait()]. *)
Theorem never_panics n s t i :
  reachable n s →
  (∀ p, threads s !! t = Some p → checked p = true → wg_rule n s) →
  step t i s ≠ Panic.
Proof. intros Hs _. by apply step_no_panic, (reachable_Inv n). Qed.

Lemma never_panics_witness :
  reachable 1 at_Done ∧ threads at_Done !! 1%nat = Some Send72d ∧
  wg_rule 1 at_Done ∧ step 1 Run at_Done ≠ Panic.
Proof.
  assert (reachable 1 at_Done) as Hr
    by (do 3 apply run_default_reachable; apply reachable_init).
  assert (wg_rule 1 at_Done) as Hw by (left; lia).
  split; [exact Hr|]. split; [by rewrite at_Done_threads|].
  split; [exact Hw|].
  apply (never_panics 1 at_Done 1 Run Hr). intros _ _ _. exact Hw.
Defined.

(** X5.  No deadlock: in a reachable state in which some goroutine is
    neither a producer at rest nor a [sendData] that has ended, some
    goroutine can move, whatever the world will answer. *)
Theorem no_deadlock n s t p w :
  reachable n s → threads s !! t = Some p → p ≠ Idle → p ≠ Exited →
  ∃ t' p' s', threads s !! t' = Some p' ∧ step t' (input_at w p') s = Next s'.
Proof. intros Hs. apply progress. by apply (reachable_Inv n). Qed.

Lemma no_deadlock_witness :
  reachable 1 handed_over ∧
  ∃ t' p' s', threads handed_over !! t' = Some p' ∧
              step t' (input_at unreachable p') handed_over = Next s'.
Proof.
  assert (reachable 1 handed_over) as Hr
    by (do 2 apply run_default_reachable; apply reachable_init).
  split; [exact Hr|].
  apply (no_deadlock 1 handed_over 1 Send86d unreachable Hr);
    [vm_compute; reflexivity|done|done].
Defined.

(** X6.  Mutual exclusion: at most one goroutine stands between a [Lock]
    and its [Unlock], and the mutex is locked exactly when one does. *)
Theorem mutual_exclusion n s :
  reachable n s →
  (∀ t1 t2 p1 p2, threads s !! t1 = Some p1 → threads s !! t2 = Some p2 →
     holds_lock p1 = 1%nat → holds_lock p2 = 1%nat → t1 = t2)
  ∧ (mu (buf s) = true ↔
     ∃ t p, threads s !! t = Some p ∧ holds_lock p = 1%nat).
Proof.
  intros Hs. pose proof (inv_mutex s (reachable_Inv n s Hs)) as Hmu. split.
  - intros t1 t2 p1 p2 H1 H2 Hp1 Hp2.
    destruct (decide (t1 = t2)) as [|Hne]; [done|exfalso].
    pose proof (tally_lookup holds_lock _ _ _ H2) as E2.
    pose proof (tally_delete_other holds_lock _ t2 _ _ H1 Hne).
    destruct (mu (buf s)); simpl in *; lia.
  - split.
    + intros Hm. rewrite Hm in Hmu.
      destruct (tally_pos_lookup holds_lock (threads s)) as (t & p & Ht & Hp);
        [simpl in Hmu; lia|].
      exists t, p. split; [done|]. destruct p; simpl in *; lia.
    + intros (t & p & Ht & Hp).
      pose proof (tally_lookup_le holds_lock _ _ _ Ht).
      destruct (mu (buf s)); simpl in *; [done|lia].
Qed.

Lemma mutual_exclusion_witness :
  reachable 1 handed_over ∧ mu (buf handed_over) = true.
Proof.
  assert (reachable 1 handed_over) as Hr
    by (do 2 apply run_default_reachable; apply reachable_init).
  split; [exact Hr|].
  destruct (mutual_exclusion 1 handed_over Hr) as [_ [_ H]].
  apply H. exists 1%nat, Send86d. split; [vm_compute; reflexivity|done].
Defined.

(** X9.  An item is never left behind: whenever the mutex is free and the
    queue holds an item, [isSending] is set. *)
Theorem queue_has_drainer n s :
  reachable n s → mu (buf s) = false → data (buf s) ≠ [] →
  isSending (buf s) = true.
Proof.
  intros Hs Hm Hd. pose proof (reachable_Inv n s Hs) as HI.
  destruct (inv_flag s HI Hd) as [?|Hu]; [done|exfalso].
  pose proof (tally_mono unflagged holds_lock (threads s)) as Hle.
  rewrite (inv_mutex s HI), Hm in Hle. simpl in Hle.
  assert (∀ p, (unflagged p ≤ holds_lock p)%nat) by (intros []; simpl; lia).
  specialize (Hle ltac:(done)). lia.
Qed.

Lemma queue_has_drainer_witness :
  reachable 1 after_main ∧ mu (buf after_main) = false ∧
  data (buf after_main) ≠ [] ∧ isSending (buf after_main) = true.
Proof.
  assert (reachable 1 after_main) as Hr
    by apply run_default_reachable, reachable_init.
  assert (mu (buf after_main) = false) as Hm by (vm_compute; reflexivity).
  assert (length (data (buf after_main)) = 10%nat) as Hlen
    by (vm_compute; reflexivity).
  assert (data (buf after_main) ≠ []) as Hd.
  { intros Hnil.
    pose proof (eq_trans (eq_sym Hlen) (f_equal length Hnil)) as H.
    discriminate H. }
  split; [exact Hr|split; [exact Hm|split; [exact Hd|]]].
  exact (queue_has_drainer 1 after_main Hr Hm Hd).
Defined.

(** X10.  The drain converges under any scheduling and any number of
    producers: a run without new calls has at most [measure s] moves, and
    when no goroutine can move any more nothing is in progress, the queue
    is empty and every item appended has been passed to [sendToAPI]. *)
Theorem drain_converges n s sched s' :
  reachable n s → run sched s = Some s' →
  Forall (λ m, external m.2 = false) sched →
  (length sched ≤ measure s)%nat ∧
  ((∀ t i s'', external i = false → step t i s' ≠ Next s'') →
   settled s' ∧ data (buf s') = [] ∧ delivered s' = enqueued s').
Proof.
  intros Hs Hrun Hint. split.
  - pose proof (run_internal_measure sched s s' Hrun Hint). lia.
  - intros Hstuck.
    assert (Inv s') as HI by (eapply reachable_Inv, run_reachable; done).
    assert (settled s') as Hset by (by apply stuck_settled).
    destruct (settled_rest s' HI Hset) as (? & ? & _). done.
Qed.

Lemma drain_converges_witness :
  reachable 1 in_flight ∧
  (length ((1%nat, Return unreachable) :: moves 1 4) ≤ measure in_flight)%nat.
Proof.
  assert (reachable 1 in_flight) as Hr
    by apply run_default_reachable, reachable_init.
  split; [exact Hr|].
  assert (threads <$> run ((1%nat, Return unreachable) :: moves 1 4) in_flight
          = Some [Idle; Send86d; Send73]) as Hth by (vm_compute; reflexivity).
  destruct (run ((1%nat, Return unreachable) :: moves 1 4) in_flight)
    as [s'|] eqn:Hrun; [|discriminate Hth].
  apply (drain_converges 1 in_flight _ s' Hr Hrun).
  repeat constructor.
Defined.
(** ** How long the mutex is held *)

(** A move of the holder of the mutex either releases it or leaves the
    holder closer to its [Unlock]. *)
Lemma holder_step s t p s' :
  Inv s → threads s !! t = Some p → holds_lock p = 1%nat →
  step t Run s = Next s' →
  (mu (buf s') = false ∧ to_unlock p = 1%nat) ∨
  (∃ p', threads s' !! t = Some p' ∧ holds_lock p' = 1%nat ∧
         (to_unlock p' < to_unlock p)%nat).
Proof.
  intros HI Hp Hh H. pose proof (lookup_lt_Some _ _ _ Hp) as Hlt.
  step_cases H Ht; injection Hp as <-; try discriminate Hh; simpl.
  all: first [ left; split; [reflexivity|reflexivity]
             | right; eexists; split;
               [rewrite ?insert_app_l by done;
                rewrite ?lookup_app_l by (by rewrite length_insert);
                by apply list_lookup_insert_eq|];
               simpl; split; [reflexivity|lia] ].
Qed.

Lemma unlock_within k : ∀ s t p,
  Inv s → threads s !! t = Some p → holds_lock p = 1%nat →
  (to_unlock p ≤ k)%nat →
  ∃ j s', (j ≤ to_unlock p)%nat ∧ run (moves t j) s = Some s' ∧
          mu (buf s') = false.
Proof.
  induction k as [|k IH]; intros s t p HI Hp Hh Hk.
  - destruct p; simpl in *; try discriminate Hh; lia.
  - destruct (holder_moves unreachable s t p HI Hp Hh) as [s1 Hs1].
    assert (input_at unreachable p = Run) as Hin by (by destruct p).
    rewrite Hin in Hs1.
    destruct (holder_step s t p s1 HI Hp Hh Hs1)
      as [[Hm H1]|(p' & Hp' & Hh' & Hlt)].
    + exists 1%nat, s1. split_and!; [lia| |done]. simpl. by rewrite Hs1.
    + destruct (IH s1 t p' (step_inv s t Run s1 HI Hs1) Hp' Hh' ltac:(lia))
        as (j & s' & Hj & Hrun & Hm).
      exists (S j), s'. split_and!; [lia| |done]. simpl. by rewrite Hs1.
Qed.

(** X7.  The mutex is held for a few statements only, and never across
    the network call: from any reachable state the goroutine that holds it
    releases it by at most six moves of its own, each of them an ordinary
    statement, without any other goroutine having to move and without
    waiting for a call of [sendToAPI] to return. *)
Theorem lock_released_soon n s t p :
  reachable n s → threads s !! t = Some p → holds_lock p = 1%nat →
  ∃ j s', (j ≤ 6)%nat ∧ run (moves t j) s = Some s' ∧ mu (buf s') = false.
Proof.
  intros Hs Hp Hh.
  destruct (unlock_within (to_unlock p) s t p (reachable_Inv n s Hs) Hp Hh)
    as (j & s' & Hj & Hrun & Hm); [lia|].
  exists j, s'. split_and!; [|done|done].
  destruct p; simpl in *; lia.
Qed.

Lemma lock_released_soon_witness :
  reachable 1 at_test ∧
  ∃ j s', (j ≤ 6)%nat ∧ run (moves 0 j) at_test = Some s' ∧ mu (buf s') = false.
Proof.
  assert (reachable 1 at_test) as Hr
    by apply run_default_reachable, reachable_init.
  split; [exact Hr|].
  apply (lock_released_soon 1 at_test 0 Add63 Hr); [vm_compute; reflexivity|done].
Defined.

(** ** The form and the body *)

(** X12.  The form built on lines 98-101 holds each field of the item
    under its key with that one value, and nothing else, in whatever order
    the [range] went. *)
Theorem formData_contents w (data : WorkItem) :
  range_ok w →
  (∀ k, formData w data !! k = (λ v, [v]) <$> data !! k)
  ∧ size (formData w data) = size data.
Proof.
  intros Hw. rewrite (formData_fmap w data Hw). split.
  - intros k. by rewrite lookup_fmap.
  - apply map_size_fmap.
Qed.

Lemma formData_contents_witness :
  range_ok unreachable ∧
  formData unreachable (main_item 0) !! "value"%string = Some ["1"%string].
Proof.
  assert (range_ok unreachable) as Hw by (by split).
  split; [exact Hw|].
  destruct (formData_contents unreachable (main_item 0) Hw) as [H _].
  rewrite H. vm_compute. reflexivity.
Defined.

Lemma requestBody_joined w (data : WorkItem) :
  range_ok w → requestBody w data = canonical_body (QueryEscape w) data.
Proof.
  intros Hw. unfold requestBody, Values_Encode, canonical_body.
  rewrite (formData_fmap w data Hw), map_size_fmap.
  destruct (decide (size data = 0%nat)) as [Hz|Hnz].
  - apply map_size_empty_inv in Hz as ->. done.
  - rewrite (sorted_keys w data Hw).
    rewrite (write_by_key w data (sorted_pairs data) (sorted_pairs_lookup data)).
    apply write_all.
Qed.

(** X13.  The request body is empty exactly when the item has no field. *)
Theorem requestBody_empty w (data : WorkItem) :
  range_ok w → (requestBody w data = ""%string ↔ data = ∅).
Proof.
  intros Hw. rewrite (requestBody_joined w data Hw). unfold canonical_body.
  split.
  - intros Hbody. apply map_to_list_empty_iff.
    pose proof (sorted_pairs_perm data) as Hperm.
    destruct (sorted_pairs data) as [|kv ps].
    + by apply Permutation_nil_l in Hperm.
    + rewrite concat_render in Hbody.
      pose proof (render_nonempty (QueryEscape w) kv) as Hne.
      apply (f_equal String.length) in Hbody.
      rewrite string_length_app in Hbody. simpl in Hbody. lia.
  - intros ->. done.
Qed.

Lemma requestBody_empty_witness :
  range_ok unreachable ∧ requestBody unreachable ∅ = ""%string.
Proof.
  assert (range_ok unreachable) as Hw by (by split).
  split; [exact Hw|]. by apply (requestBody_empty unreachable ∅ Hw).
Defined.

(** ** [getFacts] *)

(** X14.  [getFacts] reports a failure exactly when the request cannot be
    built, the transport call fails, the status code is not 200, or the
    status is 200 and reading the body fails.  It looks at the status
    first: a response with another status is reported by its status whether
    or not its body could be read.  It never decodes the body. *)
Theorem getFacts_classification w url token params :
  (facts_failed (getFacts w url token params) = true ↔
     construction_fails w url token params ∨
     transport_fails w url token params ∨
     status_not_200 w url token params ∨
     facts_read_fails w url token params)
  ∧ (∀ resp, response_got w url token params = Some resp →
       StatusCode resp ≠ StatusOK →
       getFacts w url token params = FactsErrResponse (Status resp))
  ∧ (∀ unmarshal,
       getFacts (with_decoder w unmarshal) url token params
       = getFacts w url token params).
Proof.
  split_and!.
  - getFacts_cases w url token params; simpl.
    + split; [intros _; by left|done].
    + split; [intros _|done]. right; left. eexists. split; [done|].
      by rewrite Hdo.
    + split; [intros _|done]. do 2 right; left. by eexists.
    + split; [intros _|done]. do 2 right; left. by eexists.
    + split; [intros _|done]. do 3 right. eexists. split; [done|].
      split; [by destruct (decide (StatusCode resp = StatusOK))|].
      by rewrite Hbody.
    + split; [done|].
      intros [H|[(x & Hx & H)|[(x & Hx & H)|(x & Hx & H1 & H)]]];
        try discriminate H; injection Hx as <-.
      * by rewrite Hdo in H.
      * done.
      * by rewrite Hbody in H.
  - intros resp0 Hresp Hne.
    getFacts_cases w url token params; simplify_eq/=; done.
  - intros unmarshal. reflexivity.
Qed.

Lemma getFacts_classification_witness :
  getFacts (world_with (λ _, None)
              (λ _, inr {| StatusCode := 403; Status := "403 Forbidden";
                           Body := inl "unexpected EOF"%string |})
              decode_braces)
    main_url main_token (main_item 0)
  = FactsErrResponse "403 Forbidden".
Proof.
  destruct (getFacts_classification
              (world_with (λ _, None)
                 (λ _, inr {| StatusCode := 403; Status := "403 Forbidden";
                              Body := inl "unexpected EOF"%string |})
                 decode_braces)
              main_url main_token (main_item 0)) as (_ & H & _).
  apply (H {| StatusCode := 403; Status := "403 Forbidden";
              Body := inl "unexpected EOF"%string |}); [reflexivity|done].
Defined.

(** X15.  On the same input and in the same world, [sendToAPI] succeeds
    with a body exactly when [getFacts] prints that body and the body
    decodes; where it has a status other than 200 and a body that cannot
    be read, the two differ: [sendToAPI] reports the read error and
    [getFacts] the status. *)
Theorem sendToAPI_getFacts w url token data :
  (∀ body, sendToAPI w url token data = Sent body ↔
           getFacts w url token data = Facts body ∧
           ¬ is_err (json_Unmarshal w body))
  ∧ (∀ resp err, response_got w url token data = Some resp →
       StatusCode resp ≠ StatusOK → Body resp = inl err →
       sendToAPI w url token data = ErrReadingBody err ∧
       getFacts w url token data = FactsErrResponse (Status resp)).
Proof.
  split.
  - intros body0.
    getFacts_cases w url token data; simpl;
      try (destruct (json_Unmarshal w body) eqn:Hjson);
      (split; [intros H|intros [H Hok]]); simplify_eq/=; try done.
    + exfalso. rewrite Hjson in Hok. by apply Hok.
    + split; [done|]. rewrite Hjson. simpl. tauto.
  - intros resp0 err Hresp Hne Hb.
    getFacts_cases w url token data; simplify_eq/=;
      first [ by split; congruence | congruence | by destruct Hcode ].
Qed.

Lemma sendToAPI_getFacts_witness :
  sendToAPI (answering 200 "200 OK" "{}") main_url main_token (main_item 0)
  = Sent "{}".
Proof.
  destruct (sendToAPI_getFacts (answering 200 "200 OK" "{}")
              main_url main_token (main_item 0)) as [H _].
  apply H. split; [reflexivity|]. simpl. tauto.
Defined.
(** ** The loop that ends [main] *)

Lemma nth_tl {A} (l : list A) k d : nth k (tl l) d = nth (S k) l d.
Proof. destruct l; [by destruct k|done]. Qed.

(** X16.  The loop is left at the first line read that is ["exit"] once
    trimmed: with the lines before it that are not, one prompt has been
    printed for each line read, and the farewell last. *)
Theorem exit_loop_stops TrimSpace fuel stdin k :
  (k < fuel)%nat →
  TrimSpace (nth k stdin ""%string) = "exit"%string →
  (∀ j, (j < k)%nat → TrimSpace (nth j stdin ""%string) ≠ "exit"%string) →
  exit_loop TrimSpace fuel stdin = (replicate (S k) Prompt ++ [Farewell], true).
Proof.
  revert fuel stdin. induction k as [|k IH]; intros [|fuel] stdin Hk Hexit Hno;
    try lia; simpl.
  - destruct stdin; simpl in *; by rewrite decide_True.
  - rewrite decide_False.
    + rewrite (IH fuel (tl stdin)); [done|lia|by rewrite nth_tl|].
      intros j Hj. rewrite nth_tl. apply Hno. lia.
    + specialize (Hno 0%nat ltac:(lia)). by destruct stdin.
Qed.

Lemma exit_loop_stops_witness :
  exit_loop trim_ascii 5
    [("hello" +:+ newline)%string; (" exit" +:+ newline)%string;
     ("never read" +:+ newline)%string]
  = ([Prompt; Prompt; Farewell], true).
Proof.
  apply (exit_loop_stops trim_ascii 5 _ 1); [lia|vm_compute; reflexivity|].
  intros [|j] Hj; [|lia]. vm_compute. discriminate.
Defined.

(** X17.  When no line read is ["exit"] once trimmed, and the empty string
    returned at the end of the input is not either, the loop is never left:
    after any number of rounds it has printed that many prompts and goes
    on. *)
Theorem exit_loop_goes_on TrimSpace stdin :
  (∀ k, TrimSpace (nth k stdin ""%string) ≠ "exit"%string) →
  ∀ fuel, exit_loop TrimSpace fuel stdin = (replicate fuel Prompt, false).
Proof.
  intros Hno fuel. revert stdin Hno.
  induction fuel as [|fuel IH]; intros stdin Hno; simpl; [done|].
  rewrite decide_False.
  - rewrite (IH (tl stdin)); [done|]. intros k. rewrite nth_tl. apply Hno.
  - specialize (Hno 0%nat). by destruct stdin.
Qed.

Lemma exit_loop_goes_on_witness :
  exit_loop trim_ascii 7 [("quit" +:+ newline)%string]
  = (replicate 7 Prompt, false).
Proof.
  apply (exit_loop_goes_on trim_ascii).
  intros [|[|k]]; vm_compute; discriminate.
Defined.
